(** * Waveform generator, audio worker and rectangle approximation

    A shallow embedding of the scripts of the Utils repository:

    - [scripts/fundamental_waveforms/fundamental_waveforms.py]: the four
      waveform generators, the preview plot, the Play/Stop button handler,
      the audio thread body and the completion callback of [WaveformApp];
    - [scripts/simple_function_approximation/simple_function_area_approximation.py]:
      the cubic [func_to_approximate] and the step function [simple_func].

    Conventions of the embedding.

    - A Python float is an exact rational, [+inf], [-inf] or [nan]
      ([pyfloat]); the rounding of IEEE arithmetic and the final narrowing of
      the buffers to 32-bit floats ([astype(np.float32)]) are not modelled.
      The values of [np.sin] and [np.arcsin] are the real numbers [sin] and
      [asin] of the Standard Library.
    - The application object is a record; the [threading.Event] and
      [threading.Thread] objects live in two stores indexed by allocation
      order, so that a stale worker keeps its own event while the
      application already points to a fresh one.
    - Console output ([print]) is not modelled; [messagebox.showerror] is. *)

From Stdlib Require Import Bool Arith ZArith QArith Qround Qreals Reals.
From Stdlib Require Import Lia List String Ascii Psatz.
Import ListNotations.

Set Implicit Arguments.

(* ================================================================== *)
(** ** Python values used by the scripts *)

Module Py.

(** A Python [float]: finite values are kept exact. *)
Inductive pyfloat : Type :=
| PFin (q : Q)
| PInf
| PNegInf
| PNaN.

(** [x > 0] on floats: false on [nan]. *)
Definition gt0 (x : pyfloat) : bool :=
  match x with
  | PFin q => negb (Qle_bool q 0)
  | PInf => true
  | PNegInf => false
  | PNaN => false
  end.

(** [x <= 0] on floats: false on [nan]. *)
Definition le0 (x : pyfloat) : bool :=
  match x with
  | PFin q => Qle_bool q 0
  | PInf => false
  | PNegInf => true
  | PNaN => false
  end.

(** Exceptions the modelled code can raise. *)
Inductive exn : Type :=
| ValueError
| KeyError
| DeviceError.

Inductive result (A : Type) : Type :=
| Ok (a : A)
| Raise (e : exn).
Arguments Raise {A} e.

(** [int(x)] on a finite float: truncation towards zero. *)
Definition py_int (x : Q) : Z :=
  if Qle_bool 0 x then Qfloor x else Qceiling x.


(** *** [float(text)]

    The grammar of the built-in on ASCII text: surrounding whitespace is
    dropped, then an optional sign and either [inf], [infinity] or [nan]
    in any case, or a decimal number with optional fraction and exponent;
    single underscores may separate digits.  [None] stands for
    [ValueError]. *)

Definition is_space (c : ascii) : bool :=
  let n := nat_of_ascii c in
  ((9 <=? n) && (n <=? 13) || (28 <=? n) && (n <=? 32))%nat.

Definition digit_val (c : ascii) : option Z :=
  let n := nat_of_ascii c in
  if ((48 <=? n) && (n <=? 57))%nat then Some (Z.of_nat (n - 48)) else None.

Definition to_lower (c : ascii) : ascii :=
  let n := nat_of_ascii c in
  if ((65 <=? n) && (n <=? 90))%nat then ascii_of_nat (n + 32) else c.

Fixpoint lstrip (s : list ascii) : list ascii :=
  match s with
  | c :: s' => if is_space c then lstrip s' else s
  | [] => []
  end.

Definition strip (s : list ascii) : list ascii :=
  rev (lstrip (rev (lstrip s))).

(** The digits that follow a first digit: [(["_"] digit)*]. *)
Fixpoint digit_tail (s : list ascii) : list Z * list ascii :=
  match s with
  | [] => ([], [])
  | c :: s' =>
      match digit_val c with
      | Some d => let (ds, r) := digit_tail s' in (d :: ds, r)
      | None =>
          if Ascii.eqb c "_" then
            match s' with
            | c2 :: s'' =>
                match digit_val c2 with
                | Some d => let (ds, r) := digit_tail s'' in (d :: ds, r)
                | None => ([], s)
                end
            | [] => ([], s)
            end
          else ([], s)
      end
  end.

Definition digitpart (s : list ascii) : option (list Z * list ascii) :=
  match s with
  | c :: s' =>
      match digit_val c with
      | Some d => let (ds, r) := digit_tail s' in Some (d :: ds, r)
      | None => None
      end
  | [] => None
  end.

Definition digits_value (ds : list Z) : Z :=
  fold_left (fun acc d => (10 * acc + d)%Z) ds 0%Z.

(** [number ::= [digitpart] "." digitpart | digitpart ["."]]: the integer
    digits, the fraction digits and the rest of the text. *)
Definition number (s : list ascii) : option (list Z * list Z * list ascii) :=
  match digitpart s with
  | Some (ip, r) =>
      match r with
      | "."%char :: r' =>
          match digitpart r' with
          | Some (fp, r'') => Some (ip, fp, r'')
          | None => Some (ip, [], r')
          end
      | _ => Some (ip, [], r)
      end
  | None =>
      match s with
      | "."%char :: r' =>
          match digitpart r' with
          | Some (fp, r'') => Some ([], fp, r'')
          | None => None
          end
      | _ => None
      end
  end.

Definition split_sign (s : list ascii) : bool * list ascii :=
  match s with
  | "+"%char :: r => (false, r)
  | "-"%char :: r => (true, r)
  | _ => (false, s)
  end.

(** [exponent ::= ("e" | "E") [sign] digitpart], absent when the text
    ends after the number. *)
Definition exponent (s : list ascii) : option Z :=
  match s with
  | [] => Some 0%Z
  | c :: r =>
      if Ascii.eqb (to_lower c) "e" then
        let (neg, r') := split_sign r in
        match digitpart r' with
        | Some (ds, []) =>
            Some (if neg then (- digits_value ds)%Z else digits_value ds)
        | _ => None
        end
      else None
  end.

Definition floatnumber (s : list ascii) : option Q :=
  match number s with
  | Some (ip, fp, r) =>
      match exponent r with
      | Some e =>
          Some (Qred (inject_Z (digits_value (ip ++ fp)%list)
                      * Qpower 10 (e - Z.of_nat (List.length fp))))
      | None => None
      end
  | None => None
  end.

Definition ascii_list_eqb (a b : list ascii) : bool :=
  String.eqb (string_of_list_ascii a) (string_of_list_ascii b).

Definition py_float (text : string) : option pyfloat :=
  let (neg, body) := split_sign (strip (list_ascii_of_string text)) in
  let low := map to_lower body in
  if ascii_list_eqb low (list_ascii_of_string "inf")
     || ascii_list_eqb low (list_ascii_of_string "infinity")
  then Some (if neg then PNegInf else PInf)
  else if ascii_list_eqb low (list_ascii_of_string "nan")
  then Some PNaN
  else match floatnumber body with
       | Some q => Some (PFin (if neg then Qred (- q) else q))
       | None => None
       end.

End Py.
Import Py.

(* ================================================================== *)
(** ** WaveformSynthesizer: the four generators *)

Module Waveform.

(** Module constants of [fundamental_waveforms.py]. *)
Definition SAMPLE_RATE : Z := 44100.
Definition PLAY_DURATION_S : Q := 5.
Definition AMPLITUDE : Q := 1 # 2.
Definition FRAMES_PER_BUFFER : nat := 1024.
Definition NUM_PERIODS_TO_PLOT : Q := 3.

(** One amplitude of a buffer: a real number, or [nan] (what numpy yields
    when the frequency is infinite or [nan]). *)
Inductive sample : Type :=
| SVal (v : R)
| SNaN.

(** [np.linspace(0, stop, num, endpoint=False)]: [num] points
    [i * (stop / num)]; a negative [num] raises [ValueError]. *)
Definition linspace0 (stop : Q) (num : Z) : result (list Q) :=
  if (num <? 0)%Z then Raise ValueError
  else
    let step := (stop / inject_Z num)%Q in
    Ok (map (fun i => (inject_Z (Z.of_nat i) * step)%Q) (seq 0 (Z.to_nat num))).

(** The time grid shared by the four generators:
    [np.linspace(0, duration, int(sample_rate * duration), endpoint=False)]. *)
Definition time_grid (duration : Q) (sample_rate : Z) : result (list Q) :=
  linspace0 duration (py_int (inject_Z sample_rate * duration)).

(** The number of points the generators ask [np.linspace] for. *)
Definition num_samples (duration : Q) (sample_rate : Z) : nat :=
  Z.to_nat (py_int (inject_Z sample_rate * duration)).

(** [np.sign] on a real number. *)
Definition np_sign (x : R) : R :=
  match total_order_T x 0 with
  | inleft (left _) => (-1)%R
  | inleft (right _) => 0%R
  | inright _ => 1%R
  end.

(** [2 * np.pi * frequency * t]. *)
Definition phase (frequency t : Q) : R :=
  (2 * PI * Q2R frequency * Q2R t)%R.

(** [AMPLITUDE * np.sin(2 * np.pi * frequency * t)]. *)
Definition sine_at (frequency t : Q) : R :=
  (Q2R AMPLITUDE * sin (phase frequency t))%R.

(** [AMPLITUDE * np.sign(np.sin(...))], then
    [waveform[waveform == 0] = AMPLITUDE]. *)
Definition square_at (frequency t : Q) : R :=
  let w := (Q2R AMPLITUDE * np_sign (sin (phase frequency t)))%R in
  if Req_dec_T w 0 then Q2R AMPLITUDE else w.

(** [AMPLITUDE * (2 / np.pi) * np.arcsin(np.sin(...))]. *)
Definition triangle_at (frequency t : Q) : R :=
  (Q2R AMPLITUDE * (2 / PI) * asin (sin (phase frequency t)))%R.

(** [AMPLITUDE * 2 * (t * frequency - np.floor(0.5 + t * frequency))]:
    rational on rational arguments. *)
Definition sawtooth_q (frequency t : Q) : Q :=
  (AMPLITUDE * 2
   * (t * frequency - inject_Z (Qfloor ((1 # 2) + t * frequency))))%Q.

Definition sawtooth_at (frequency t : Q) : R := Q2R (sawtooth_q frequency t).


(** Element-wise evaluation for a float frequency: every sample is [nan]
    when the frequency is not finite ([0 * inf], [sin inf], [inf - inf]). *)
Definition sample_at (wave : Q -> Q -> R) (frequency : pyfloat) (t : Q) : sample :=
  match frequency with
  | PFin f => SVal (wave f t)
  | _ => SNaN
  end.

Definition generator : Type :=
  pyfloat -> Q -> Z -> result (list Q * list sample).

Definition generate (wave : Q -> Q -> R) : generator :=
  fun frequency duration sample_rate =>
    match time_grid duration sample_rate with
    | Ok t => Ok (t, map (sample_at wave frequency) t)
    | Raise e => Raise e
    end.

Definition generate_sine : generator := generate sine_at.
Definition generate_square : generator := generate square_at.
Definition generate_triangle : generator := generate triangle_at.
Definition generate_sawtooth : generator := generate sawtooth_at.

(** [self.waveform_generators]: a dict keyed by the family's name. *)
Definition waveform_generators : list (string * generator) :=
  [ ("Sine"%string, generate_sine); ("Square"%string, generate_square);
    ("Triangle"%string, generate_triangle);
    ("Sawtooth"%string, generate_sawtooth) ].

Fixpoint dict_get {V : Type} (d : list (string * V)) (k : string) : result V :=
  match d with
  | [] => Raise KeyError
  | (k', v) :: d' => if String.eqb k k' then Ok v else dict_get d' k
  end.

End Waveform.
Import Waveform.

(* ================================================================== *)
(** ** The rectangle-approximation scene *)

Module Rectangles.

(** [func_to_approximate]:
    [3 / 256 * np.power(x, 3) - 9 / 16 * x + 1.75]. *)
Definition func_to_approximate (x : Q) : Q :=
  ((3 # 256) * x ^ 3 - (9 # 16) * x + (7 # 4))%Q.

(** [simple_func = lambda x: np.floor(func_to_approximate(x) * n) / n]
    of [create_simple_function_rectangles]; [n] is the refinement level. *)
Definition simple_func (n : Z) (x : Q) : Q :=
  (inject_Z (Qfloor (func_to_approximate x * inject_Z n)) / inject_Z n)%Q.

End Rectangles.
Import Rectangles.

(* ================================================================== *)
(** ** PlaybackController: the state of [WaveformApp] and its handlers *)

Module App.

(** A [threading.Thread] running [_play_audio_thread_target]: whether it
    is alive, and the arguments it was started with. *)
Record Thread : Type := mkThread {
  th_alive : bool;
  th_stop_event : nat;
  th_audio_data : list sample;
  th_wave_type : string;
  th_freq : pyfloat
}.

(** What the canvas shows after [ax.plot(t_plot, waveform_plot)] and
    [ax.set_xlim(0, plot_duration_s)]. *)
Record Plot : Type := mkPlot {
  plot_t : list Q;
  plot_waveform : list sample;
  plot_xlim : Q
}.

Record WaveformApp : Type := mkApp {
  _is_closed : bool;
  master_exists : bool;            (* [self.master.winfo_exists()] *)
  pa : bool;                       (* [self.pa] is not [None] *)
  fig_ax : bool;                   (* [self.fig] and [self.ax] are set *)
  audio_thread : option nat;       (* index in [threads] *)
  stop_audio_event : option nat;   (* index in [events] *)
  audio_active : bool;
  wave_type_var : string;
  freq_var : string;
  button_text : string;            (* [self.play_stop_button['text']] *)
  plot : option Plot;
  events : list bool;              (* the Event objects: [is_set()] *)
  threads : list Thread;           (* the Thread objects *)
  after_queue : nat;               (* posted [_update_ui_after_playback_change] calls *)
  errors_shown : list (string * string)   (* [messagebox.showerror] calls *)
}.

Definition set_audio_thread (v : option nat) (s : WaveformApp) : WaveformApp :=
  mkApp (_is_closed s) (master_exists s) (pa s) (fig_ax s) v
        (stop_audio_event s) (audio_active s) (wave_type_var s) (freq_var s)
        (button_text s) (plot s) (events s) (threads s) (after_queue s)
        (errors_shown s).

Definition set_stop_audio_event (v : option nat) (s : WaveformApp) : WaveformApp :=
  mkApp (_is_closed s) (master_exists s) (pa s) (fig_ax s) (audio_thread s)
        v (audio_active s) (wave_type_var s) (freq_var s)
        (button_text s) (plot s) (events s) (threads s) (after_queue s)
        (errors_shown s).

Definition set_audio_active (v : bool) (s : WaveformApp) : WaveformApp :=
  mkApp (_is_closed s) (master_exists s) (pa s) (fig_ax s) (audio_thread s)
        (stop_audio_event s) v (wave_type_var s) (freq_var s)
        (button_text s) (plot s) (events s) (threads s) (after_queue s)
        (errors_shown s).

Definition set_wave_type_var (v : string) (s : WaveformApp) : WaveformApp :=
  mkApp (_is_closed s) (master_exists s) (pa s) (fig_ax s) (audio_thread s)
        (stop_audio_event s) (audio_active s) v (freq_var s)
        (button_text s) (plot s) (events s) (threads s) (after_queue s)
        (errors_shown s).

Definition set_freq_var (v : string) (s : WaveformApp) : WaveformApp :=
  mkApp (_is_closed s) (master_exists s) (pa s) (fig_ax s) (audio_thread s)
        (stop_audio_event s) (audio_active s) (wave_type_var s) v
        (button_text s) (plot s) (events s) (threads s) (after_queue s)
        (errors_shown s).

Definition set_button_text (v : string) (s : WaveformApp) : WaveformApp :=
  mkApp (_is_closed s) (master_exists s) (pa s) (fig_ax s) (audio_thread s)
        (stop_audio_event s) (audio_active s) (wave_type_var s) (freq_var s)
        v (plot s) (events s) (threads s) (after_queue s)
        (errors_shown s).

Definition set_plot (v : option Plot) (s : WaveformApp) : WaveformApp :=
  mkApp (_is_closed s) (master_exists s) (pa s) (fig_ax s) (audio_thread s)
        (stop_audio_event s) (audio_active s) (wave_type_var s) (freq_var s)
        (button_text s) v (events s) (threads s) (after_queue s)
        (errors_shown s).

Definition set_events (v : list bool) (s : WaveformApp) : WaveformApp :=
  mkApp (_is_closed s) (master_exists s) (pa s) (fig_ax s) (audio_thread s)
        (stop_audio_event s) (audio_active s) (wave_type_var s) (freq_var s)
        (button_text s) (plot s) v (threads s) (after_queue s)
        (errors_shown s).

Definition set_threads (v : list Thread) (s : WaveformApp) : WaveformApp :=
  mkApp (_is_closed s) (master_exists s) (pa s) (fig_ax s) (audio_thread s)
        (stop_audio_event s) (audio_active s) (wave_type_var s) (freq_var s)
        (button_text s) (plot s) (events s) v (after_queue s)
        (errors_shown s).

Definition set_after_queue (v : nat) (s : WaveformApp) : WaveformApp :=
  mkApp (_is_closed s) (master_exists s) (pa s) (fig_ax s) (audio_thread s)
        (stop_audio_event s) (audio_active s) (wave_type_var s) (freq_var s)
        (button_text s) (plot s) (events s) (threads s) v
        (errors_shown s).

Definition set_errors_shown (v : list (string * string)) (s : WaveformApp)
  : WaveformApp :=
  mkApp (_is_closed s) (master_exists s) (pa s) (fig_ax s) (audio_thread s)
        (stop_audio_event s) (audio_active s) (wave_type_var s) (freq_var s)
        (button_text s) (plot s) (events s) (threads s) (after_queue s) v.

(** *** A state and exception monad for the methods *)

Definition M (A : Type) : Type := WaveformApp -> result A * WaveformApp.

Definition ret {A : Type} (a : A) : M A := fun s => (Ok a, s).

Definition bind {A B : Type} (m : M A) (f : A -> M B) : M B :=
  fun s =>
    match m s with
    | (Ok a, s') => f a s'
    | (Raise e, s') => (Raise e, s')
    end.

Definition get {A : Type} (field : WaveformApp -> A) : M A :=
  fun s => (Ok (field s), s).

Definition modify (f : WaveformApp -> WaveformApp) : M unit :=
  fun s => (Ok tt, f s).

Definition lift {A : Type} (r : result A) : M A := fun s => (r, s).

Declare Scope app_scope.
Delimit Scope app_scope with app.
Notation "x <- m ;; k" := (bind m (fun x => k))
  (at level 61, m at next level, right associativity) : app_scope.
Notation "m ;; k" := (bind m (fun _ => k))
  (at level 61, right associativity) : app_scope.
Local Open Scope app_scope.

(** The state a method call leaves behind, whatever it returned. *)
Definition exec {A : Type} (m : M A) (s : WaveformApp) : WaveformApp :=
  snd (m s).

(** *** Shared objects *)

Fixpoint list_set {A : Type} (l : list A) (i : nat) (v : A) : list A :=
  match l, i with
  | [], _ => []
  | _ :: l', O => v :: l'
  | a :: l', S i' => a :: list_set l' i' v
  end.

(** [event.is_set()] for the Event at index [e]. *)
Definition event_is_set (e : nat) (s : WaveformApp) : bool :=
  nth e (events s) false.

(** [thread.is_alive()] for the Thread at index [t]. *)
Definition thread_is_alive (t : nat) (s : WaveformApp) : bool :=
  match nth_error (threads s) t with
  | Some th => th_alive th
  | None => false
  end.

(** [self.audio_thread and self.audio_thread.is_alive()]. *)
Definition audio_thread_alive (s : WaveformApp) : bool :=
  match audio_thread s with
  | Some t => thread_is_alive t s
  | None => false
  end.

(** [if self.stop_audio_event: self.stop_audio_event.set()]. *)
Definition signal_stop : M unit :=
  e <- get stop_audio_event ;;
  match e with
  | Some i => modify (fun s => set_events (list_set (events s) i true) s)
  | None => ret tt
  end.

(** [threading.Event()]: a fresh, unset Event. *)
Definition new_event : M nat :=
  i <- get (fun s => List.length (events s)) ;;
  modify (fun s => set_events (events s ++ [false])%list s) ;;
  ret i.

(** [threading.Thread(target=..., args=...)] followed by [start()]. *)
Definition start_thread (e : nat) (audio_data : list sample)
           (wave_type : string) (freq : pyfloat) : M nat :=
  i <- get (fun s => List.length (threads s)) ;;
  modify (fun s =>
    set_threads (threads s ++ [mkThread true e audio_data wave_type freq])%list s) ;;
  ret i.

Definition showerror (title message : string) : M unit :=
  modify (fun s => set_errors_shown (errors_shown s ++ [(title, message)])%list s).

(** The end of a worker thread as the UI thread sees it: the Thread is
    no longer alive, and the [finally] block of
    [_play_audio_thread_target] has posted the completion callback with
    [self.master.after(0, ...)] unless the application is closed or the
    window is gone. *)
Definition thread_exit (t : nat) : M unit :=
  modify (fun s =>
    match nth_error (threads s) t with
    | Some th =>
        set_threads
          (list_set (threads s) t
             (mkThread false (th_stop_event th) (th_audio_data th)
                       (th_wave_type th) (th_freq th))) s
    | None => s
    end) ;;
  closed <- get _is_closed ;;
  if negb closed then
    exists_ <- get master_exists ;;
    if exists_ then modify (fun s => set_after_queue (S (after_queue s)) s)
    else ret tt
  else ret tt.

(** [self.audio_thread.join(timeout=...)]: [joined] tells whether the
    worker ends within the timeout. *)
Definition join_audio_thread (joined : bool) : M unit :=
  t <- get audio_thread ;;
  match t with
  | Some i => if joined then thread_exit i else ret tt
  | None => ret tt
  end.

(** *** [update_plot_display_only] *)

(** [max(0.001, min(self.NUM_PERIODS_TO_PLOT / frequency_hz, 0.2))]. *)
Definition py_min (a b : Q) : Q := if Qle_bool a b then a else b.
Definition py_max (a b : Q) : Q := if Qle_bool b a then a else b.

Definition plot_duration (frequency_hz : pyfloat) : Q :=
  let periods :=
    match frequency_hz with
    | PFin f => (NUM_PERIODS_TO_PLOT / f)%Q
    | _ => 0%Q
    end in
  py_max (1 # 1000) (py_min periods (2 # 10)).

Definition update_plot_display_only
           (frequency_hz_override : option pyfloat)
           (wave_type_key_override : option string) : M unit :=
  closed <- get _is_closed ;;
  has_fig <- get fig_ax ;;
  if closed || negb has_fig then ret tt
  else
    wave_type_var_ <- get wave_type_var ;;
    let wave_type_key :=
      match wave_type_key_override with
      | Some k => if String.eqb k "" then wave_type_var_ else k
      | None => wave_type_var_
      end in
    freq_text <- get freq_var ;;
    let parsed :=
      match frequency_hz_override with
      | Some f => Some f
      | None => py_float freq_text
      end in
    let frequency_hz :=
      match parsed with
      | Some temp_freq => if gt0 temp_freq then temp_freq else PFin 440
      | None => PFin 440
      end in
    generator_func <- lift (dict_get waveform_generators wave_type_key) ;;
    let plot_duration_s := plot_duration frequency_hz in
    tw <- lift (generator_func frequency_hz plot_duration_s SAMPLE_RATE) ;;
    modify (set_plot (Some (mkPlot (fst tw) (snd tw) plot_duration_s))).

(** *** [on_play_stop_button_click] *)

Definition on_play_stop_button_click (joined : bool) : M unit :=
  closed <- get _is_closed ;;
  if closed then ret tt
  else
    has_pa <- get pa ;;
    if negb has_pa then showerror "Audio Error" "PyAudio is not available."
    else
      active <- get audio_active ;;
      if active then
        modify (set_audio_active false) ;;
        signal_stop ;;
        modify (set_button_text "Play")
      else
        freq_text <- get freq_var ;;
        match py_float freq_text with
        | None => showerror "Input Error" "Invalid frequency."
        | Some frequency =>
            if le0 frequency
            then showerror "Input Error" "Frequency must be positive."
            else
              update_plot_display_only (Some frequency) None ;;
              alive <- get audio_thread_alive ;;
              (if alive then signal_stop ;; join_audio_thread joined
               else ret tt) ;;
              wave_type <- get wave_type_var ;;
              gen <- lift (dict_get waveform_generators wave_type) ;;
              tw <- lift (gen frequency PLAY_DURATION_S SAMPLE_RATE) ;;
              let waveform_play := snd tw in
              modify (set_audio_active true) ;;
              modify (set_button_text "Stop") ;;
              e <- new_event ;;
              modify (set_stop_audio_event (Some e)) ;;
              t <- start_thread e waveform_play wave_type frequency ;;
              modify (set_audio_thread (Some t))
        end.

(** *** [_update_ui_after_playback_change] *)

Definition _update_ui_after_playback_change : M unit :=
  closed <- get _is_closed ;;
  if closed then ret tt
  else
    exists_ <- get master_exists ;;
    if negb exists_ then ret tt
    else
      active <- get audio_active ;;
      text <- get button_text ;;
      if negb active then
        if negb (String.eqb text "Play") then modify (set_button_text "Play")
        else ret tt
      else
        alive <- get audio_thread_alive ;;
        if alive then
          if negb (String.eqb text "Stop") then modify (set_button_text "Stop")
          else ret tt
        else
          modify (set_audio_active false) ;;
          if negb (String.eqb text "Play") then modify (set_button_text "Play")
          else ret tt.

(** *** The application as an event-driven machine *)

(** [WaveformApp.__init__]; [pa_ok] tells whether [pyaudio.PyAudio()]
    succeeded in [_init_pyaudio] (the text of its exception is left out
    of the error message; the button, disabled in that case, stays
    clickable here, and the handler then shows its own error). *)
Definition app_init (pa_ok : bool) : WaveformApp :=
  exec (update_plot_display_only None None)
    (mkApp false true pa_ok true None None false "Sine" "440" "Play" None
           [] [] 0
           (if pa_ok then []
            else [("Audio Error"%string,
                   "Could not initialize PyAudio. Playback will be disabled."%string)])).

(** What the Tk main loop can dispatch, and what a worker can do to the
    state seen by the UI thread. *)
Inductive ui_event : Type :=
| Click (joined : bool)          (* the Play/Stop button *)
| TypeFrequency (text : string)  (* editing the frequency entry *)
| RefreshPreview                 (* <Return> or <FocusOut> on the entry *)
| SelectWave (name : string)     (* <<ComboboxSelected>> *)
| WorkerExit (t : nat)           (* a live worker thread ends *)
| Callback.                      (* Tk runs one posted callback *)

Definition is_key (name : string) : bool :=
  existsb (fun kv => String.eqb name (fst kv)) waveform_generators.

(** [None] when the event cannot happen in the state: the combobox is
    read-only, only a live thread can end, and only a posted callback
    runs. *)
Definition dispatch (ev : ui_event) (s : WaveformApp) : option WaveformApp :=
  match ev with
  | Click joined => Some (exec (on_play_stop_button_click joined) s)
  | TypeFrequency text => Some (set_freq_var text s)
  | RefreshPreview => Some (exec (update_plot_display_only None None) s)
  | SelectWave name =>
      if is_key name
      then Some (exec (update_plot_display_only None None) (set_wave_type_var name s))
      else None
  | WorkerExit t =>
      if thread_is_alive t s then Some (exec (thread_exit t) s) else None
  | Callback =>
      match after_queue s with
      | S n => Some (exec _update_ui_after_playback_change (set_after_queue n s))
      | O => None
      end
  end.

(** The displayed label mirrors the active flag, and the application is
    open with its window. *)
Definition consistent (s : WaveformApp) : Prop :=
  _is_closed s = false
  /\ master_exists s = true
  /\ (audio_active s = true -> button_text s = "Stop"%string)
  /\ (audio_active s = false -> button_text s = "Play"%string).

(** The states of the running application: what [__init__] leaves, and
    what the events above lead to.  Closing the window ([on_closing]) is
    not an event of this machine. *)
Inductive reachable : WaveformApp -> Prop :=
| reach_init (pa_ok : bool) : reachable (app_init pa_ok)
| reach_step (s s' : WaveformApp) (ev : ui_event) :
    reachable s -> dispatch ev s = Some s' -> reachable s'.

End App.
Import App.

(* ================================================================== *)
(** ** AudioWorker: [_play_audio_thread_target] *)

Module Worker.

Local Open Scope nat_scope.

(** The worker runs beside the UI thread, which may change the
    application between any two of the worker's readings.  A run is
    therefore a function of [ui : nat -> WaveformApp], the application as
    the worker finds it at its k-th reading of shared state, and of a
    [Device] telling which calls raise.  [stream.close()] is the last call
    of its [try] block, so whether it raises changes nothing the worker
    does; the Tk calls of the [finally] block are taken not to raise. *)
Record Device : Type := mkDevice {
  open_raises : bool;              (* [self.pa.open(...)] *)
  write_raises : nat -> bool;      (* [stream.write] of the n-th chunk *)
  is_active_result : result bool;  (* [stream.is_active()] *)
  stop_raises : bool               (* [stream.stop_stream()] *)
}.

(** The calls the worker makes that are visible outside its thread. *)
Inductive effect : Type :=
| EOpen                          (* [self.pa.open(...)] *)
| EWrite (chunk : list sample)   (* [stream.write(chunk.tobytes())] *)
| EIsActive
| EStopStream
| EClose
| EAfter.                        (* [self.master.after(0, self._update_ui_after_playback_change)] *)

(** [audio_data[i:j]]. *)
Definition slice {A : Type} (l : list A) (i j : nat) : list A :=
  firstn (j - i)%nat (skipn i l).

(** [range(0, stop, step)] for a positive [step]. *)
Definition range_step (stop step : nat) : list nat :=
  map (fun k => (k * step)%nat) (seq 0 ((stop + step - 1) / step)%nat).

(** The loop
    [for i in range(0, len(audio_data), FRAMES_PER_BUFFER)] from its
    iteration at offsets [offs]; [ui k] is the application object as the
    worker reads it at its k-th look at shared state, [n] counts the
    chunks written so far.  Returns the calls made, whether a call
    raised, and the next reading time. *)
Fixpoint write_loop (ui : nat -> WaveformApp) (dev : Device) (stop_event : nat)
         (audio_data : list sample) (offs : list nat) (k n : nat)
  : list effect * bool * nat :=
  match offs with
  | [] => ([], false, k)
  | i :: offs' =>
      if event_is_set stop_event (ui k) || negb (audio_active (ui k))
      then ([], false, S k)
      else
        let chunk :=
          slice audio_data i
                (Nat.min (i + FRAMES_PER_BUFFER)%nat (List.length audio_data)) in
        if (0 <? List.length chunk)%nat then
          if write_raises dev n then ([EWrite chunk], true, S k)
          else
            let '(tr, raised, k') :=
              write_loop ui dev stop_event audio_data offs' (S k) (S n) in
            (EWrite chunk :: tr, raised, k')
        else write_loop ui dev stop_event audio_data offs' (S k) n
  end.

(** The [try] block: the calls made, whether [stream] is set when the
    [finally] block starts, and the next reading time. *)
Definition try_block (ui : nat -> WaveformApp) (dev : Device) (stop_event : nat)
           (audio_data : list sample) : list effect * bool * nat :=
  if event_is_set stop_event (ui 0) || negb (audio_active (ui 0))
  then ([], false, 1)
  else if negb (pa (ui 1)) then ([], false, 2)
  else if open_raises dev then ([EOpen], false, 2)
  else
    let '(tr, _, k) :=
      write_loop ui dev stop_event audio_data
                 (range_step (List.length audio_data) FRAMES_PER_BUFFER) 2 0 in
    (EOpen :: tr, true, k).

(** [if stream: try: if stream.is_active(): stream.stop_stream();
    stream.close() except Exception: ...]. *)
Definition release (dev : Device) (stream : bool) : list effect :=
  if stream then
    match is_active_result dev with
    | Raise _ => [EIsActive]
    | Ok true =>
        if stop_raises dev then [EIsActive; EStopStream]
        else [EIsActive; EStopStream; EClose]
    | Ok false => [EIsActive; EClose]
    end
  else [].

(** The scheduling at the end of the [finally] block. *)
Definition notify (view : WaveformApp) : list effect :=
  if negb (_is_closed view) then
    if master_exists view then [EAfter] else []
  else [].


Definition _play_audio_thread_target (ui : nat -> WaveformApp) (dev : Device)
           (stop_event : nat) (audio_data : list sample) : list effect :=
  let '(body, stream, k) := try_block ui dev stop_event audio_data in
  (body ++ release dev stream ++ notify (ui k))%list.

(** Projections of a run. *)
Definition is_after (e : effect) : bool :=
  match e with EAfter => true | _ => false end.





(** The chunks handed to [stream.write], in order. *)
Fixpoint chunks_written (tr : list effect) : list (list sample) :=
  match tr with
  | [] => []
  | EWrite c :: tr' => c :: chunks_written tr'
  | _ :: tr' => chunks_written tr'
  end.


(** Two states of the application that look alike to a worker whose
    Event is [stop_event] while it decides what to write: same Event
    flag, same active flag, same audio handle. *)
Definition same_view (stop_event : nat) (a b : WaveformApp) : Prop :=
  event_is_set stop_event a = event_is_set stop_event b
  /\ audio_active a = audio_active b
  /\ pa a = pa b.


(** A device on which no call raises and the stream reports active. *)
Definition sound_device : Device :=
  mkDevice false (fun _ => false) (Ok true) false.

(** The calls on the device, without the posted callback. *)
Definition device_calls (tr : list effect) : list effect :=
  filter (fun e => negb (is_after e)) tr.

End Worker.
Import Worker.

(* ================================================================== *)
(** ** Closing the window: [on_closing] *)

Module Closing.

Local Open Scope app_scope.

Definition set_is_closed (v : bool) (s : WaveformApp) : WaveformApp :=
  mkApp v (master_exists s) (pa s) (fig_ax s) (audio_thread s)
        (stop_audio_event s) (audio_active s) (wave_type_var s) (freq_var s)
        (button_text s) (plot s) (events s) (threads s) (after_queue s)
        (errors_shown s).

Definition set_master_exists (v : bool) (s : WaveformApp) : WaveformApp :=
  mkApp (_is_closed s) v (pa s) (fig_ax s) (audio_thread s)
        (stop_audio_event s) (audio_active s) (wave_type_var s) (freq_var s)
        (button_text s) (plot s) (events s) (threads s) (after_queue s)
        (errors_shown s).

Definition set_pa (v : bool) (s : WaveformApp) : WaveformApp :=
  mkApp (_is_closed s) (master_exists s) v (fig_ax s) (audio_thread s)
        (stop_audio_event s) (audio_active s) (wave_type_var s) (freq_var s)
        (button_text s) (plot s) (events s) (threads s) (after_queue s)
        (errors_shown s).

Definition set_fig_ax (v : bool) (s : WaveformApp) : WaveformApp :=
  mkApp (_is_closed s) (master_exists s) (pa s) v (audio_thread s)
        (stop_audio_event s) (audio_active s) (wave_type_var s) (freq_var s)
        (button_text s) (plot s) (events s) (threads s) (after_queue s)
        (errors_shown s).

(** [self.master.update()]: Tk dispatches the events that are pending;
    one that cannot happen in the state it meets is dropped. *)
Fixpoint process_pending (pending : list ui_event) (s : WaveformApp) : WaveformApp :=
  match pending with
  | [] => s
  | ev :: rest =>
      match dispatch ev s with
      | Some s' => process_pending rest s'
      | None => process_pending rest s
      end
  end.

(** What the environment decides during [on_closing]: whether the worker
    ends within the one-second join, whether [self.pa.terminate()] and
    [plt.close(self.fig)] raise, which events [self.master.update()]
    dispatches, and whether the window is destroyed (if not, a Tk call of
    the last [try] block raised after the pending events were served). *)
Record closing_env : Type := mkClosingEnv {
  joined : bool;
  terminate_raises : bool;
  close_figure_raises : bool;
  pending : list ui_event;
  destroy_raises : bool
}.

Definition on_closing (env : closing_env) : M unit :=
  closed <- get _is_closed ;;
  if closed then ret tt
  else
    modify (set_audio_active false) ;;
    signal_stop ;;
    alive <- get audio_thread_alive ;;
    (if alive then join_audio_thread (joined env) else ret tt) ;;
    has_pa <- get pa ;;
    (if has_pa then
       if terminate_raises env then ret tt else modify (set_pa false)
     else ret tt) ;;
    has_fig <- get fig_ax ;;
    (if has_fig then
       if close_figure_raises env then ret tt else modify (set_fig_ax false)
     else ret tt) ;;
    exists_ <- get master_exists ;;
    (if exists_ then
       modify (process_pending (pending env)) ;;
       if destroy_raises env then ret tt else modify (set_master_exists false)
     else ret tt) ;;
    modify (set_is_closed true).

(** No pending event is a click on the button. *)
Definition no_click (evs : list ui_event) : bool :=
  forallb (fun ev => match ev with Click _ => false | _ => true end) evs.

End Closing.
Import Closing.

(* ================================================================== *)
(** ** Sessions and their workers *)

Module Session.

(** Every Thread object points to an Event of the store, and the
    application's Event is the one its current thread was started with. *)
Definition stores_linked (s : WaveformApp) : Prop :=
  (forall t th, nth_error (threads s) t = Some th ->
                (th_stop_event th < List.length (events s))%nat)
  /\ (forall t, audio_thread s = Some t ->
                exists th, nth_error (threads s) t = Some th
                           /\ stop_audio_event s = Some (th_stop_event th)).

(** Every live worker has been told to stop, except the worker of the
    active session. *)
Definition workers_signalled (s : WaveformApp) : Prop :=
  forall t th,
    nth_error (threads s) t = Some th -> th_alive th = true ->
    event_is_set (th_stop_event th) s = true
    \/ (audio_thread s = Some t /\ audio_active s = true).

(** The two conditions above on the parts of the application they read:
    the Thread and Event stores, [self.audio_thread],
    [self.stop_audio_event] and [self.audio_active]. *)
Definition session_inv (ths : list Thread) (evs : list bool)
           (cur cev : option nat) (act : bool) : Prop :=
  (forall t th, nth_error ths t = Some th ->
                (th_stop_event th < List.length evs)%nat)
  /\ (forall t, cur = Some t ->
                exists th, nth_error ths t = Some th
                           /\ cev = Some (th_stop_event th))
  /\ (forall t th,
        nth_error ths t = Some th -> th_alive th = true ->
        nth (th_stop_event th) evs false = true
        \/ (cur = Some t /\ act = true)).

Definition session_ok (s : WaveformApp) : Prop :=
  session_inv (threads s) (events s) (audio_thread s) (stop_audio_event s)
              (audio_active s).

End Session.
Import Session.

(* ================================================================== *)
(** ** The rectangles of the approximation scene *)

Module Scene.

Local Open Scope Q_scope.

(** [func_max_val]. *)
Definition func_max_val : Q := 35 # 10.

(** The scene's refinement levels. *)
Definition n_values : list Z := [1; 2; 4; 8; 16; 32]%Z.

(** [np.isclose(a, b)] with numpy's default tolerances:
    [|a - b| <= 1e-8 + 1e-5 * |b|]. *)
Definition np_isclose (a b : Q) : bool :=
  Qle_bool (Qabs.Qabs (a - b))
           ((1 # 100000000) + (1 # 100000) * Qabs.Qabs b).

(** [np.arange(start, stop, step)]: [ceil((stop - start) / step)] points
    [start + i * step]. *)
Definition np_arange (start stop step : Q) : list Q :=
  map (fun i => start + inject_Z (Z.of_nat i) * step)
      (seq 0 (Z.to_nat (Qceiling ((stop - start) / step)))).

(** One [Rectangle] in the units of the axes: its left edge (it is moved
    to [axes.c2p(segment_start_x, 0)] by its lower left corner), its width
    and height before the scaling by the axes' unit sizes, and the value
    [norm(current_y)] its colour is looked up with. *)
Record Rect : Type := mkRect {
  rect_x : Q;
  rect_width : Q;
  rect_height : Q;
  rect_norm : Q
}.

(** [mcolors.Normalize(vmin=0, vmax=func_max_val)]. *)
Definition norm (y : Q) : Q := (y - 0) / (func_max_val - 0).

(** The rectangle built from a segment, when [current_y > 1e-6]. *)
Definition segment_rect (segment_start_x end_x current_y : Q) : list Rect :=
  if Qle_bool current_y (1 # 1000000) then []
  else [mkRect segment_start_x (end_x - segment_start_x) current_y (norm current_y)].

(** The loop [for x_val in x_values[1:]]: the rectangles added, and
    [current_y] and [segment_start_x] when it ends. *)
Fixpoint rect_loop (n : Z) (xs : list Q) (current_y segment_start_x : Q)
  : list Rect * Q * Q :=
  match xs with
  | [] => ([], current_y, segment_start_x)
  | x_val :: xs' =>
      let new_y := simple_func n x_val in
      if negb (np_isclose new_y current_y) then
        let '(rest, y, start) := rect_loop n xs' new_y x_val in
        ((segment_rect segment_start_x x_val current_y ++ rest)%list, y, start)
      else rect_loop n xs' current_y segment_start_x
  end.

(** The body of [create_simple_function_rectangles] on the sample points
    [x_values]; [None] is the [IndexError] of [x_values[0]] on an empty
    array. *)
Definition rectangles_over (n : Z) (x_values : list Q) : option (list Rect) :=
  match x_values with
  | [] => None
  | x0 :: xs =>
      let '(rects, current_y, segment_start_x) :=
        rect_loop n xs (simple_func n x0) x0 in
      Some (rects ++ segment_rect segment_start_x (last x_values 0) current_y)%list
  end.

Definition create_simple_function_rectangles (n : Z) (x_domain : Q * Q) (dx : Q)
  : option (list Rect) :=
  rectangles_over n (np_arange (fst x_domain) (snd x_domain + dx) dx).

(** The defaults [x_domain=[-8, 8], dx=0.001]. *)
Definition default_domain : Q * Q := (-8, 8).
Definition default_dx : Q := 1 # 1000.

(** Rectangles laid out from left to right between [lo] and [hi]: each
    starts at or after the end of the one before and has a positive
    width. *)
Fixpoint laid_out (lo : Q) (rects : list Rect) (hi : Q) : Prop :=
  match rects with
  | [] => lo <= hi
  | r :: rest =>
      lo <= rect_x r /\ 0 < rect_width r
      /\ laid_out (rect_x r + rect_width r) rest hi
  end.

(** Strictly increasing sample points, all above [lo]. *)
Fixpoint increasing_from (lo : Q) (xs : list Q) : Prop :=
  match xs with
  | [] => True
  | x :: xs' => lo < x /\ increasing_from x xs'
  end.

End Scene.
Import Scene.

(* ================================================================== *)
(** ** The splitting animation *)

Module Splitting.

Local Open Scope Q_scope.

(** What the loop reads of [axes]: the length of one unit of the x axis
    on the scene and the scene coordinate of [x = 0]. *)
Record Axes : Type := mkAxes {
  x_unit_size : Q;
  x_origin : Q
}.

(** [axes.c2p(x, 0)[0]]. *)
Definition c2p_x (axes : Axes) (x : Q) : Q :=
  x_origin axes + x_unit_size axes * x.

(** [rect.width] of a rectangle built with
    [width=axes.x_axis.unit_size * rect_width]. *)
Definition scene_width (axes : Axes) (r : Rect) : Q :=
  x_unit_size axes * rect_width r.

(** [rect.get_center()[0]] after
    [rect.move_to(axes.c2p(segment_start_x, 0), aligned_edge=DL)]. *)
Definition center_x (axes : Axes) (r : Rect) : Q :=
  c2p_x axes (rect_x r) + scene_width axes r / 2.

(** [abs(new_rect.get_center()[0] - old_rect_x_center) < old_rect_width / 2]. *)
Definition falls_inside (axes : Axes) (old_rect new_rect : Rect) : bool :=
  negb (Qle_bool (scene_width axes old_rect / 2)
                 (Qabs.Qabs (center_x axes new_rect - center_x axes old_rect))).

(** The loop [for new_rect in next_approx_rects] for one old rectangle;
    a rectangle of a group is named by its position in the group, [j]
    being the position of the head of [next]. *)
Fixpoint children_from (axes : Axes) (old_rect : Rect) (next : list Rect) (j : nat)
  : list nat :=
  match next with
  | [] => []
  | new_rect :: rest =>
      if falls_inside axes old_rect new_rect
      then j :: children_from axes old_rect rest (S j)
      else children_from axes old_rect rest (S j)
  end.

Inductive animation : Type :=
| ReplacementTransform (old_rect : nat) (children : list nat)
    (* copies of the old rectangle turn into its children *)
| FadeOut (old_rect : nat)
| FadeIn (new_rects : list nat).

(** The loop [for old_rect in current_approx_rects], from the old
    rectangle at position [i]: the animations appended and the rectangles
    added to [matched_new_rects] (read only through [in], so the order
    and the repetitions of the group do not matter). *)
Fixpoint old_rects_loop (axes : Axes) (current : list Rect) (i : nat)
         (next : list Rect) : list animation * list nat :=
  match current with
  | [] => ([], [])
  | old_rect :: rest =>
      let children := children_from axes old_rect next 0 in
      let '(animations, matched) := old_rects_loop axes rest (S i) next in
      if (0 <? List.length children)%nat
      then (ReplacementTransform i children :: animations,
            (children ++ matched)%list)
      else (FadeOut i :: animations, matched)
  end.

(** [[r for r in next_approx_rects if r not in matched_new_rects]]. *)
Definition unmatched_new_rects (next : list Rect) (matched : list nat) : list nat :=
  filter (fun j => negb (existsb (Nat.eqb j) matched))
         (seq 0 (List.length next)).

(** The list [animations] handed to [self.play] for one refinement. *)
Definition split_animations (axes : Axes) (current next : list Rect)
  : list animation :=
  let '(animations, matched) := old_rects_loop axes current 0 next in
  let unmatched := unmatched_new_rects next matched in
  if (0 <? List.length unmatched)%nat
  then (animations ++ [FadeIn unmatched])%list
  else animations.

(** The new rectangles an animation brings onto the scene. *)
Definition animated (a : animation) : list nat :=
  match a with
  | ReplacementTransform _ children => children
  | FadeOut _ => []
  | FadeIn new_rects => new_rects
  end.

(** Rectangles in order from [lo] on: each starts at or after the end of
    the one before; a width may be zero. *)
Fixpoint in_order (lo : Q) (rects : list Rect) : Prop :=
  match rects with
  | [] => True
  | r :: rest =>
      lo <= rect_x r /\ 0 <= rect_width r
      /\ in_order (rect_x r + rect_width r) rest
  end.

End Splitting.
Import Splitting.

(* ================================================================== *)
(** ** The signed-area plot *)

Module SignedArea.

Local Open Scope Q_scope.

(** [f(x) = x**3 - x**2 - 6*x]. *)
Definition f (x : Q) : Q := x ^ 3 - x ^ 2 - 6 * x.

(** [np.linspace(start, stop, num)] with the end point included:
    [start + i * ((stop - start) / (num - 1))]. *)
Definition linspace (start stop : Q) (num : nat) : list Q :=
  map (fun i => start + inject_Z (Z.of_nat i)
                        * ((stop - start) / inject_Z (Z.of_nat (num - 1))))
      (seq 0 num).

(** [x = np.linspace(-3, 4, 500)] and [y = f(x)]. *)
Definition x : list Q := linspace (-3) 4 500.
Definition y : list Q := map f x.

(** The masks [where=(y > 0)] and [where=(y < 0)] of the two fills. *)
Definition positive_mask (ys : list Q) : list bool :=
  map (fun v => negb (Qle_bool v 0)) ys.
Definition negative_mask (ys : list Q) : list bool :=
  map (fun v => negb (Qle_bool 0 v)) ys.

End SignedArea.

(* ================================================================== *)
(** * Properties *)

(** ** The float parser on the inputs used below *)

Example py_float_440 : py_float "440" = Some (PFin 440).
Proof. reflexivity. Qed.
Example py_float_neg5 : py_float "-5" = Some (PFin (-5)).
Proof. reflexivity. Qed.
Example py_float_frac : py_float " 2.5e1 " = Some (PFin 25).
Proof. reflexivity. Qed.
Example py_float_small : py_float "1_0.25" = Some (PFin (41 # 4)).
Proof. reflexivity. Qed.
Example py_float_abc : py_float "abc" = None.
Proof. reflexivity. Qed.
Example py_float_empty : py_float "" = None.
Proof. reflexivity. Qed.
Example py_float_dot : py_float "." = None.
Proof. reflexivity. Qed.
Example py_float_1e : py_float "1e" = None.
Proof. reflexivity. Qed.
Example py_float_nan : py_float "NaN" = Some PNaN.
Proof. reflexivity. Qed.
Example py_float_inf : py_float "-Infinity" = Some PNegInf.
Proof. reflexivity. Qed.

(* ================================================================== *)
(** ** WaveformSynthesizer *)

Section Synthesizer.

Local Open Scope Q_scope.


Lemma py_int_nonneg (x : Q) : 0 <= x -> py_int x = Qfloor x.
Proof.
  intros Hx. unfold py_int.
  destruct (Qle_bool 0 x) eqn:E; [reflexivity|].
  apply Qle_bool_iff in Hx. congruence.
Qed.

Lemma Qfloor_nonneg (x : Q) : 0 <= x -> (0 <= Qfloor x)%Z.
Proof.
  intros Hx. change 0%Z with (Qfloor 0). now apply Qfloor_resp_le.
Qed.

Lemma rate_duration_nonneg (duration : Q) (sample_rate : Z) :
  0 < duration -> (0 < sample_rate)%Z -> 0 <= inject_Z sample_rate * duration.
Proof.
  intros Hd Hr. apply Qmult_le_0_compat; [|lra].
  change 0 with (inject_Z 0). rewrite <- Zle_Qle. lia.
Qed.

(** With a positive duration and rate the grid exists: [num] points
    [i * (duration / num)]. *)
Lemma time_grid_ok (duration : Q) (sample_rate : Z) :
  0 < duration -> (0 < sample_rate)%Z ->
  time_grid duration sample_rate
  = Ok (map (fun i => inject_Z (Z.of_nat i)
                      * (duration
                         / inject_Z (py_int (inject_Z sample_rate * duration))))
            (seq 0 (num_samples duration sample_rate))).
Proof.
  intros Hd Hr. unfold time_grid, linspace0, num_samples.
  pose proof (rate_duration_nonneg Hd Hr) as Hx.
  rewrite (py_int_nonneg Hx).
  pose proof (Qfloor_nonneg Hx) as Hn.
  destruct (Z.ltb_spec (Qfloor (inject_Z sample_rate * duration)) 0);
    [lia | reflexivity].
Qed.

Lemma generate_ok (wave : Q -> Q -> R) (frequency : pyfloat)
      (duration : Q) (sample_rate : Z) :
  0 < duration -> (0 < sample_rate)%Z ->
  exists t,
    time_grid duration sample_rate = Ok t
    /\ List.length t = num_samples duration sample_rate
    /\ generate wave frequency duration sample_rate
       = Ok (t, map (sample_at wave frequency) t).
Proof.
  intros Hd Hr. eexists. split; [apply (time_grid_ok Hd Hr)|].
  split.
  - now rewrite length_map, length_seq.
  - unfold generate. now rewrite (time_grid_ok Hd Hr).
Qed.


(** *** Bounds of the four sample formulas *)








(** *** Consecutive grid points *)

Lemma time_grid_nth (duration : Q) (sample_rate : Z) (i : nat) (ti : Q) :
  0 < duration -> (0 < sample_rate)%Z ->
  nth_error
    (map (fun i => inject_Z (Z.of_nat i)
                   * (duration
                      / inject_Z (py_int (inject_Z sample_rate * duration))))
         (seq 0 (num_samples duration sample_rate))) i = Some ti ->
  (i < num_samples duration sample_rate)%nat
  /\ ti = inject_Z (Z.of_nat i)
          * (duration / inject_Z (py_int (inject_Z sample_rate * duration))).
Proof.
  intros Hd Hr H.
  assert (Hi : (i < num_samples duration sample_rate)%nat).
  { assert (Hs : nth_error
                   (map (fun i => inject_Z (Z.of_nat i)
                                  * (duration
                                     / inject_Z (py_int (inject_Z sample_rate
                                                         * duration))))
                        (seq 0 (num_samples duration sample_rate))) i <> None)
      by (rewrite H; discriminate).
    apply nth_error_Some in Hs. now rewrite length_map, length_seq in Hs. }
  split; [exact Hi|].
  rewrite nth_error_map, nth_error_seq in H.
  destruct (Nat.ltb_spec i (num_samples duration sample_rate)); [|lia].
  simpl in H. now inversion H.
Qed.

Lemma grid_step_pos (duration : Q) (sample_rate : Z) :
  0 < duration -> (0 < num_samples duration sample_rate)%nat ->
  0 < duration / inject_Z (py_int (inject_Z sample_rate * duration)).
Proof.
  intros Hd Hn. unfold num_samples in Hn.
  apply Qlt_shift_div_l.
  - change 0 with (inject_Z 0). rewrite <- Zlt_Qlt. lia.
  - lra.
Qed.

End Synthesizer.

(** *** Buffer length *)




(** *** Square *)



(** *** Sawtooth *)



(** *** Range of the samples *)



(* ================================================================== *)
(** ** The rectangle approximation *)

(** C10: for every refinement level [n > 0] and every [x] with
    [f(x) >= 0], [floor(f(x) * n) / n <= f(x) < floor(f(x) * n) / n + 1 / n]. *)
Theorem C10_simple_func_underestimates (n : Z) (x : Q) :
  (0 < n)%Z -> (0 <= func_to_approximate x)%Q ->
  (simple_func n x <= func_to_approximate x)%Q
  /\ (func_to_approximate x < simple_func n x + 1 / inject_Z n)%Q.
Proof.
  intros Hn _. unfold simple_func.
  assert (Hq : (0 < inject_Z n)%Q)
    by (change 0%Q with (inject_Z 0); rewrite <- Zlt_Qlt; exact Hn).
  set (y := func_to_approximate x).
  pose proof (Qfloor_le (y * inject_Z n)) as Hlo.
  pose proof (Qlt_floor (y * inject_Z n)) as Hhi.
  rewrite inject_Z_plus in Hhi. change (inject_Z 1) with 1%Q in Hhi.
  set (k := inject_Z (Qfloor (y * inject_Z n))) in *.
  split.
  - apply Qle_shift_div_r; assumption.
  - assert (E : (k / inject_Z n + 1 / inject_Z n == (k + 1) / inject_Z n)%Q)
      by (field; lra).
    rewrite E. apply Qlt_shift_div_l; assumption.
Qed.

Lemma C10_simple_func_witness :
  (simple_func 4 2 <= func_to_approximate 2)%Q
  /\ (func_to_approximate 2 < simple_func 4 2 + 1 / inject_Z 4)%Q.
Proof.
  apply (@C10_simple_func_underestimates 4 2).
  - reflexivity.
  - vm_compute. discriminate.
Defined.

(* ================================================================== *)
(** ** PlaybackController *)

Section Controller.

Local Open Scope Q_scope.

(** Every entry of the dispatch table is one of the four generators. *)
Lemma dict_get_generators (key : string) (gen : generator) :
  dict_get waveform_generators key = Ok gen ->
  exists wave, gen = generate wave.
Proof.
  unfold waveform_generators. cbn [dict_get].
  destruct (String.eqb key "Sine"); [intros H; inversion H; eexists; reflexivity|].
  destruct (String.eqb key "Square"); [intros H; inversion H; eexists; reflexivity|].
  destruct (String.eqb key "Triangle"); [intros H; inversion H; eexists; reflexivity|].
  destruct (String.eqb key "Sawtooth"); [intros H; inversion H; eexists; reflexivity|].
  discriminate.
Qed.

Lemma generator_returns (key : string) (gen : generator)
      (frequency : pyfloat) (duration : Q) :
  dict_get waveform_generators key = Ok gen -> 0 < duration ->
  exists t w, gen frequency duration SAMPLE_RATE = Ok (t, w).
Proof.
  intros Hk Hd. destruct (dict_get_generators _ Hk) as (wave & ->).
  destruct (@generate_ok wave frequency duration SAMPLE_RATE Hd)
    as (t & _ & _ & Hg); [reflexivity|].
  eauto.
Qed.

Lemma plot_duration_pos (frequency_hz : pyfloat) : 0 < plot_duration frequency_hz.
Proof.
  unfold plot_duration, py_max.
  match goal with |- context [Qle_bool ?a ?b] => destruct (Qle_bool a b) eqn:E end.
  - reflexivity.
  - destruct (Qlt_le_dec 0 (py_min
        match frequency_hz with
        | PFin f => NUM_PERIODS_TO_PLOT / f
        | _ => 0
        end (2 # 10))) as [H|H]; [exact H|].
    exfalso. assert (Qle_bool (py_min
        match frequency_hz with
        | PFin f => NUM_PERIODS_TO_PLOT / f
        | _ => 0
        end (2 # 10)) (1 # 1000) = true).
    { apply Qle_bool_iff. lra. }
    congruence.
Qed.

(** The preview method on an open application whose wave type is a key
    of the table: it plots the wave at the frequency it settled on. *)
Lemma update_plot_display_only_spec
      (s : WaveformApp) (override : option pyfloat) (gen : generator) :
  _is_closed s = false -> fig_ax s = true ->
  dict_get waveform_generators (wave_type_var s) = Ok gen ->
  let parsed := match override with
                | Some f => Some f
                | None => py_float (freq_var s)
                end in
  let frequency_hz := match parsed with
                      | Some temp_freq =>
                          if gt0 temp_freq then temp_freq else PFin 440
                      | None => PFin 440
                      end in
  exists t w,
    gen frequency_hz (plot_duration frequency_hz) SAMPLE_RATE = Ok (t, w)
    /\ update_plot_display_only override None s
       = (Ok tt, set_plot (Some (mkPlot t w (plot_duration frequency_hz))) s).
Proof.
  intros Hc Hf Hk parsed frequency_hz.
  destruct (@generator_returns _ gen frequency_hz (plot_duration frequency_hz) Hk)
    as (t & w & Hg); [apply plot_duration_pos|].
  exists t, w. split; [exact Hg|].
  unfold update_plot_display_only, bind, get, lift, modify, ret.
  rewrite Hc, Hf. cbn [orb negb]. rewrite Hk.
  fold parsed. fold frequency_hz. rewrite Hg. reflexivity.
Qed.

(** *** Stepping through a handler *)

Local Opaque dict_get py_float plot_duration waveform_generators.

Ltac unfold_handlers :=
  unfold exec, on_play_stop_button_click, _update_ui_after_playback_change,
    update_plot_display_only, thread_exit, join_audio_thread, signal_stop,
    new_event, start_thread, showerror, bind, get, modify, lift, ret.

Ltac step_handler :=
  match goal with
  | |- context [match ?x with _ => _ end] =>
      lazymatch x with
      | context [match _ with _ => _ end] => fail
      | negb ?b => destruct b eqn:?
      | _ => destruct x eqn:?
      end
  end; cbn in *.

Ltac string_eqs :=
  repeat match goal with
         | H : String.eqb _ _ = true |- _ => apply String.eqb_eq in H
         end.

Ltac finish_consistent :=
  string_eqs; repeat split; intros; first [assumption | congruence | auto].

Lemma click_consistent (joined : bool) (s : WaveformApp) :
  consistent s -> consistent (exec (on_play_stop_button_click joined) s).
Proof.
  intros (Hc & Hm & Ha & Hb). unfold consistent.
  unfold_handlers. cbn.
  repeat step_handler; finish_consistent.
Qed.

Lemma callback_consistent (s : WaveformApp) :
  consistent s -> consistent (exec _update_ui_after_playback_change s).
Proof.
  intros (Hc & Hm & Ha & Hb). unfold consistent.
  unfold_handlers. cbn.
  repeat step_handler; finish_consistent.
Qed.

Lemma preview_consistent (s : WaveformApp) :
  consistent s -> consistent (exec (update_plot_display_only None None) s).
Proof.
  intros (Hc & Hm & Ha & Hb). unfold consistent.
  unfold_handlers. cbn.
  repeat step_handler; finish_consistent.
Qed.

Lemma thread_exit_consistent (t : nat) (s : WaveformApp) :
  consistent s -> consistent (exec (thread_exit t) s).
Proof.
  intros (Hc & Hm & Ha & Hb). unfold consistent.
  unfold_handlers. cbn.
  repeat step_handler; finish_consistent.
Qed.

Lemma app_init_consistent (pa_ok : bool) : consistent (app_init pa_ok).
Proof.
  apply preview_consistent. unfold consistent. cbn.
  repeat split; congruence.
Qed.

Lemma dispatch_consistent (ev : ui_event) (s s' : WaveformApp) :
  consistent s -> dispatch ev s = Some s' -> consistent s'.
Proof.
  intros Hs Hd. destruct ev; cbn [dispatch] in Hd.
  - inversion Hd. now apply click_consistent.
  - inversion Hd. exact Hs.
  - inversion Hd. now apply preview_consistent.
  - destruct (is_key name); [|discriminate]. inversion Hd.
    apply preview_consistent. exact Hs.
  - destruct (thread_is_alive t s); [|discriminate]. inversion Hd.
    now apply thread_exit_consistent.
  - destruct (after_queue s) eqn:E; [discriminate|]. inversion Hd.
    apply callback_consistent. exact Hs.
Qed.

Lemma reachable_consistent (s : WaveformApp) : reachable s -> consistent s.
Proof.
  induction 1 as [pa_ok | s s' ev _ IH Hd].
  - apply app_init_consistent.
  - exact (dispatch_consistent ev IH Hd).
Qed.

(** *** The completion callback *)

Lemma nth_error_list_set_other {A : Type} (l : list A) (i j : nat) (v : A) :
  i <> j -> nth_error (list_set l i v) j = nth_error l j.
Proof.
  revert i j. induction l as [|a l IH]; intros [|i] [|j] Hij; cbn;
    try reflexivity; try congruence.
  apply IH. congruence.
Qed.

(** The end of a worker other than the one the application points to
    leaves the latter as it was. *)
Lemma thread_exit_other (t : nat) (s : WaveformApp) :
  audio_thread s <> Some t ->
  let s1 := exec (thread_exit t) s in
  audio_thread_alive s1 = audio_thread_alive s
  /\ audio_thread s1 = audio_thread s
  /\ audio_active s1 = audio_active s
  /\ button_text s1 = button_text s.
Proof.
  intros Hne. destruct s as [c m p f th ev act wv fv bt pl evs ths q errs].
  unfold_handlers. unfold audio_thread_alive, thread_is_alive. cbn in *.
  destruct (nth_error ths t) as [x|] eqn:Et; destruct c; destruct m; cbn;
    destruct th as [n|]; try rewrite nth_error_list_set_other by congruence;
    auto.
Qed.

Lemma callback_with_live_worker (s : WaveformApp) :
  consistent s -> audio_active s = true -> audio_thread_alive s = true ->
  exec _update_ui_after_playback_change s = s.
Proof.
  intros (Hc & Hm & Ha & _) Hact Hal. specialize (Ha Hact).
  unfold_handlers.
  destruct s as [c m p f th ev act wv fv bt pl evs ths q errs].
  cbn in *. subst. cbn. rewrite Hal. reflexivity.
Qed.

Lemma callback_changes_label (s : WaveformApp) :
  consistent s ->
  button_text s = "Stop"%string ->
  button_text (exec _update_ui_after_playback_change s) <> "Stop"%string ->
  audio_active s = true /\ audio_thread_alive s = false
  /\ audio_active (exec _update_ui_after_playback_change s) = false
  /\ button_text (exec _update_ui_after_playback_change s) = "Play"%string.
Proof.
  intros (Hc & Hm & Ha & Hb) Ht. unfold_handlers.
  destruct s as [c m p f th ev act wv fv bt pl evs ths q errs].
  cbn in *. subst. cbn.
  destruct act; cbn.
  - match goal with
    | |- context [if ?b then _ else _] => destruct b eqn:Hal
    end; cbn.
    + congruence.
    + auto.
  - specialize (Hb eq_refl). discriminate.
Qed.

End Controller.

(** C1: in a state the running application can reach (by clicks, edits,
    wave selections, worker exits and posted callbacks) in which a session
    is active and its worker alive, the end of another (stale, superseded)
    worker followed by its completion callback leaves the label "Stop", the
    active flag set and the session's thread in place; and whenever a
    completion callback moves the label away from "Stop", the active flag
    was set and the application's worker thread was not alive, and the
    callback sets the label to "Play" and clears the flag. *)
Theorem C1_stale_completion_keeps_stop (s : WaveformApp) :
  reachable s ->
  (forall (t : nat) (s1 s2 : WaveformApp),
      audio_active s = true -> audio_thread_alive s = true ->
      audio_thread s <> Some t ->
      dispatch (WorkerExit t) s = Some s1 ->
      dispatch Callback s1 = Some s2 ->
      button_text s2 = "Stop"%string
      /\ audio_active s2 = true
      /\ audio_thread s2 = audio_thread s
      /\ audio_thread_alive s2 = true)
  /\ (forall s' : WaveformApp,
         dispatch Callback s = Some s' ->
         button_text s = "Stop"%string ->
         button_text s' <> "Stop"%string ->
         audio_active s = true /\ audio_thread_alive s = false
         /\ audio_active s' = false /\ button_text s' = "Play"%string).
Proof.
  intros Hreach. pose proof (reachable_consistent Hreach) as Hs. split.
  - intros t s1 s2 Hact Hal Hne H1 H2.
    assert (Hs1 : consistent s1) by exact (dispatch_consistent _ Hs H1).
    cbn [dispatch] in H1.
    destruct (thread_is_alive t s); [|discriminate]. inversion H1 as [E1].
    destruct (thread_exit_other s Hne) as (Eal & Eth & Eact & Etx).
    rewrite E1 in Eal, Eth, Eact, Etx.
    cbn [dispatch] in H2. destruct (after_queue s1) as [|n] eqn:Eq;
      [discriminate|]. inversion H2 as [E2].
    assert (Hq : consistent (set_after_queue n s1)) by exact Hs1.
    rewrite callback_with_live_worker.
    + cbn. rewrite Etx, Eact, Eth.
      destruct Hs as (_ & _ & Ha & _).
      repeat split; auto. change (audio_thread_alive s1 = true). congruence.
    + exact Hq.
    + cbn. congruence.
    + change (audio_thread_alive s1 = true). congruence.
  - intros s' Hd Ht Hne. cbn [dispatch] in Hd.
    destruct (after_queue s) as [|n] eqn:Eq; [discriminate|].
    inversion Hd as [E]. rewrite <- E in Hne.
    assert (Hq : consistent (set_after_queue n s)) by exact Hs.
    destruct (callback_changes_label Hq Ht Hne) as (A & B & C & D).
    auto.
Qed.

Lemma C1_stale_completion_witness :
  let s :=
    exec (on_play_stop_button_click false)         (* Play again: the join times out *)
      (exec (on_play_stop_button_click false)      (* Stop *)
         (exec (on_play_stop_button_click false)   (* Play *)
            (app_init true))) in
  let s1 := exec (thread_exit 0) s in
  let s2 := exec _update_ui_after_playback_change (set_after_queue 0 s1) in
  button_text s2 = "Stop"%string
  /\ audio_active s2 = true
  /\ audio_thread s2 = audio_thread s
  /\ audio_thread_alive s2 = true.
Proof.
  intros s s1 s2.
  assert (Hr : reachable s).
  { eapply reach_step with (ev := Click false); [|reflexivity].
    eapply reach_step with (ev := Click false); [|reflexivity].
    eapply reach_step with (ev := Click false); [|reflexivity].
    apply reach_init. }
  apply (proj1 (C1_stale_completion_keeps_stop Hr) 0%nat s1 s2).
  - reflexivity.
  - reflexivity.
  - assert (E : audio_thread s = Some 1%nat) by reflexivity.
    rewrite E. discriminate.
  - reflexivity.
  - reflexivity.
Defined.

(** *** Play with a frequency the handler rejects *)



(** C8 fails on the text "nan": [float] accepts it, the value is not
    positive, and since [nan <= 0] is false the handler goes on: no error
    is shown, a worker thread is started on a buffer made for the
    frequency [nan], the active flag is set and the label becomes "Stop". *)
Theorem C8_nan_frequency_starts_playback :
  let s := set_freq_var "nan" (app_init true) in
  let s' := exec (on_play_stop_button_click false) s in
  py_float (freq_var s) = Some PNaN
  /\ gt0 PNaN = false
  /\ audio_active s = false /\ button_text s = "Play"%string
  /\ audio_active s' = true /\ button_text s' = "Stop"%string
  /\ errors_shown s' = errors_shown s
  /\ audio_thread s' = Some 0%nat
  /\ option_map th_alive (nth_error (threads s') 0) = Some true
  /\ option_map th_freq (nth_error (threads s') 0) = Some PNaN.
Proof.
  cbv zeta. repeat split; reflexivity.
Qed.

(** *** Stop *)

(** Pressing the button while a session is active clears the flag, sets
    the session's Event and shows "Play" at once; the worker thread is not
    waited for, and no thread is started or ended. *)
Lemma click_stop_shows_play_at_once (joined : bool) (s : WaveformApp) :
  _is_closed s = false -> pa s = true -> audio_active s = true ->
  let s' := exec (on_play_stop_button_click joined) s in
  button_text s' = "Play"%string
  /\ audio_active s' = false
  /\ threads s' = threads s
  /\ audio_thread s' = audio_thread s
  /\ (forall e, stop_audio_event s = Some e -> (e < List.length (events s))%nat ->
                event_is_set e s' = true).
Proof.
  intros Hc Hp Ha.
  unfold exec, on_play_stop_button_click, signal_stop, bind, get, modify, ret.
  destruct s as [c m p f th ev act wv fv bt pl evs ths q errs].
  cbn in *. subst. cbn.
  destruct ev as [e|]; cbn; repeat split; try discriminate.
  intros e' E Hlt. inversion E; subst. unfold event_is_set. cbn.
  clear -Hlt. revert e' Hlt.
  induction evs as [|b evs IH]; intros [|e'] Hlt; cbn in *; try lia; auto.
  apply IH. lia.
Qed.

Lemma click_stop_witness :
  let s := exec (on_play_stop_button_click false) (app_init true) in
  let s' := exec (on_play_stop_button_click false) s in
  button_text s' = "Play"%string
  /\ audio_active s' = false
  /\ threads s' = threads s
  /\ audio_thread s' = audio_thread s
  /\ (forall e, stop_audio_event s = Some e -> (e < List.length (events s))%nat ->
                event_is_set e s' = true).
Proof.
  intros s.
  apply (@click_stop_shows_play_at_once false s); reflexivity.
Defined.

(** *** The preview with a frequency it cannot use *)

(** C9: on an open application whose wave type is one of the table, a
    frequency text that [float] refuses, or whose value is not [> 0],
    makes [update_plot_display_only] plot the wave at 440 Hz: it returns
    normally, replaces the plot and shows no error. *)
Theorem C9_preview_falls_back_to_440 (s : WaveformApp) (gen : generator) :
  _is_closed s = false -> fig_ax s = true ->
  dict_get waveform_generators (wave_type_var s) = Ok gen ->
  (py_float (freq_var s) = None
   \/ exists x, py_float (freq_var s) = Some x /\ gt0 x = false) ->
  exists t w,
    gen (PFin 440) (plot_duration (PFin 440)) SAMPLE_RATE = Ok (t, w)
    /\ update_plot_display_only None None s
       = (Ok tt, set_plot (Some (mkPlot t w (plot_duration (PFin 440)))) s)
    /\ errors_shown (exec (update_plot_display_only None None) s) = errors_shown s.
Proof.
  intros Hc Hf Hk Hbad.
  destruct (@update_plot_display_only_spec s None gen Hc Hf Hk) as (t & w & Hg & Hu).
  assert (E : match py_float (freq_var s) with
              | Some temp_freq => if gt0 temp_freq then temp_freq else PFin 440
              | None => PFin 440
              end = PFin 440).
  { destruct Hbad as [->|(x & -> & ->)]; reflexivity. }
  rewrite E in Hg, Hu.
  exists t, w. split; [exact Hg|]. split; [exact Hu|].
  unfold exec. rewrite Hu. reflexivity.
Qed.

Lemma C9_preview_witness :
  let s := set_freq_var "-5" (app_init true) in
  exists t w,
    generate_sine (PFin 440) (plot_duration (PFin 440)) SAMPLE_RATE = Ok (t, w)
    /\ update_plot_display_only None None s
       = (Ok tt, set_plot (Some (mkPlot t w (plot_duration (PFin 440)))) s)
    /\ errors_shown (exec (update_plot_display_only None None) s) = errors_shown s.
Proof.
  intros s.
  apply (@C9_preview_falls_back_to_440 s generate_sine).
  - reflexivity.
  - reflexivity.
  - reflexivity.
  - right. exists (PFin (-5)). split; reflexivity.
Defined.

(* ================================================================== *)
(** ** AudioWorker *)

Section AudioWorker.

Variables (dev : Device) (stop_event : nat) (audio_data : list sample).

Lemma write_loop_same_view (ui1 ui2 : nat -> WaveformApp) (offs : list nat) :
  (forall k, same_view stop_event (ui1 k) (ui2 k)) ->
  forall k n,
    write_loop ui1 dev stop_event audio_data offs k n
    = write_loop ui2 dev stop_event audio_data offs k n.
Proof.
  intros Hv. induction offs as [|i offs IH]; intros k n; cbn [write_loop].
  - reflexivity.
  - destruct (Hv k) as (-> & -> & _).
    destruct (event_is_set stop_event (ui2 k) || negb (audio_active (ui2 k)));
      [reflexivity|].
    destruct (0 <? _)%nat.
    + destruct (write_raises dev n); [reflexivity|]. now rewrite IH.
    + apply IH.
Qed.

Lemma try_block_same_view (ui1 ui2 : nat -> WaveformApp) :
  (forall k, same_view stop_event (ui1 k) (ui2 k)) ->
  try_block ui1 dev stop_event audio_data
  = try_block ui2 dev stop_event audio_data.
Proof.
  intros Hv. unfold try_block.
  destruct (Hv 0%nat) as (-> & -> & _).
  destruct (Hv 1%nat) as (_ & _ & ->).
  now rewrite (@write_loop_same_view ui1 ui2 _ Hv).
Qed.






Lemma device_calls_app (a b : list effect) :
  device_calls (a ++ b) = (device_calls a ++ device_calls b)%list.
Proof. unfold device_calls. apply filter_app. Qed.



Lemma device_calls_notify (view : WaveformApp) : device_calls (notify view) = [].
Proof.
  unfold notify. destruct (_is_closed view), (master_exists view); reflexivity.
Qed.

End AudioWorker.




(** C3, as stated, fails: the worker also reads [self.audio_active].  Two
    runs on the same buffer and device whose Event is never set, one with
    the application playing, one in which the UI thread has cleared the
    active flag (the first assignment of the Stop branch) but not yet set
    the Event, write different chunks. *)
Lemma C3_chunk_writing_reads_active_flag :
  let playing := exec (on_play_stop_button_click false) (app_init true) in
  let stopping := set_audio_active false playing in
  let data := [SVal 0; SVal 0] in
  (forall k : nat,
      event_is_set 0 ((fun _ => playing) k) = event_is_set 0 ((fun _ => stopping) k))
  /\ chunks_written (_play_audio_thread_target (fun _ => playing) sound_device 0 data)
     = [data]
  /\ chunks_written (_play_audio_thread_target (fun _ => stopping) sound_device 0 data)
     = []
  /\ chunks_written (_play_audio_thread_target (fun _ => playing) sound_device 0 data)
     <> chunks_written (_play_audio_thread_target (fun _ => stopping) sound_device 0 data).
Proof.
  intros playing stopping data.
  assert (H1 : chunks_written
                 (_play_audio_thread_target (fun _ => playing) sound_device 0 data)
               = [data]) by reflexivity.
  assert (H2 : chunks_written
                 (_play_audio_thread_target (fun _ => stopping) sound_device 0 data)
               = []) by reflexivity.
  split; [intros k; reflexivity|].
  split; [exact H1|]. split; [exact H2|].
  rewrite H1, H2. discriminate.
Qed.

(** C3, amended: the worker's writing depends on the buffer, the device
    and three pieces of shared state only: its Event, the active flag and
    the audio handle.  Two runs in which the worker finds these three equal
    at every reading make the same device calls and write the same chunks,
    whatever else differs in the application. *)
Theorem C3_chunk_writing_depends_on_event_flag_and_handle
        (ui1 ui2 : nat -> WaveformApp) (dev : Device) (stop_event : nat)
        (audio_data : list sample) :
  (forall k, same_view stop_event (ui1 k) (ui2 k)) ->
  chunks_written (_play_audio_thread_target ui1 dev stop_event audio_data)
  = chunks_written (_play_audio_thread_target ui2 dev stop_event audio_data)
  /\ device_calls (_play_audio_thread_target ui1 dev stop_event audio_data)
     = device_calls (_play_audio_thread_target ui2 dev stop_event audio_data).
Proof.
  intros Hv.
  assert (Hd : device_calls (_play_audio_thread_target ui1 dev stop_event audio_data)
               = device_calls (_play_audio_thread_target ui2 dev stop_event audio_data)).
  { unfold _play_audio_thread_target.
    rewrite (@try_block_same_view dev stop_event audio_data ui1 ui2 Hv).
    destruct (try_block ui2 dev stop_event audio_data) as [[body stream] k].
    now rewrite !device_calls_app, !device_calls_notify. }
  split; [|exact Hd].
  assert (Hc : forall tr, chunks_written (device_calls tr) = chunks_written tr).
  { unfold device_calls. induction tr as [|e tr IH]; [reflexivity|].
    destruct e; cbn; rewrite ?IH; reflexivity. }
  rewrite <- (Hc (_play_audio_thread_target ui1 dev stop_event audio_data)),
          <- (Hc (_play_audio_thread_target ui2 dev stop_event audio_data)).
  now rewrite Hd.
Qed.

(** Two runs that differ in the label, the frequency text and the closing
    state of the application write the same chunks. *)
Lemma C3_chunk_writing_witness :
  let playing := exec (on_play_stop_button_click false) (app_init true) in
  let other := set_button_text "Play" (set_freq_var "880" playing) in
  let data := [SVal 0; SVal 0] in
  chunks_written (_play_audio_thread_target (fun _ => playing) sound_device 0 data)
  = chunks_written (_play_audio_thread_target (fun _ => other) sound_device 0 data)
  /\ device_calls (_play_audio_thread_target (fun _ => playing) sound_device 0 data)
     = device_calls (_play_audio_thread_target (fun _ => other) sound_device 0 data).
Proof.
  intros playing other data.
  apply (@C3_chunk_writing_depends_on_event_flag_and_handle
           (fun _ => playing) (fun _ => other) sound_device 0 data).
  intros k. split; [reflexivity|]. split; reflexivity.
Defined.

(* ================================================================== *)
(** * Further properties of the code *)

(** ** The time grid and the preview window *)

(** The time points of every generator lie in the half-open interval
    [[0, duration)]: they start at 0, are spaced [duration / num] apart
    and never reach [duration]. *)
Theorem time_grid_is_half_open (duration : Q) (sample_rate : Z) :
  (0 < duration)%Q -> (0 < sample_rate)%Z ->
  exists t,
    time_grid duration sample_rate = Ok t
    /\ (forall i ti, nth_error t i = Some ti ->
          (ti == inject_Z (Z.of_nat i)
                 * (duration / inject_Z (py_int (inject_Z sample_rate * duration))))%Q
          /\ (0 <= ti)%Q /\ (ti < duration)%Q)
    /\ (forall i ti tj, nth_error t i = Some ti -> nth_error t (S i) = Some tj ->
          (ti < tj)%Q
          /\ (tj - ti
              == duration / inject_Z (py_int (inject_Z sample_rate * duration)))%Q).
Proof.
  intros Hd Hr. eexists. split; [apply (time_grid_ok Hd Hr)|].
  set (N := inject_Z (py_int (inject_Z sample_rate * duration))).
  split.
  - intros i ti Hi.
    destruct (@time_grid_nth _ _ _ _ Hd Hr Hi) as [Hlt Eti]. fold N in Eti.
    assert (Hstep : (0 < duration / N)%Q) by (apply grid_step_pos; [exact Hd|lia]).
    assert (HN : (0 < N)%Q).
    { unfold N, num_samples in *. change 0%Q with (inject_Z 0).
      rewrite <- Zlt_Qlt. lia. }
    assert (HiN : (inject_Z (Z.of_nat i) < N)%Q).
    { unfold N, num_samples in *. rewrite <- Zlt_Qlt. lia. }
    assert (Hi0 : (0 <= inject_Z (Z.of_nat i))%Q).
    { change 0%Q with (inject_Z 0). rewrite <- Zle_Qle. lia. }
    rewrite Eti. split; [reflexivity|]. split.
    + apply Qmult_le_0_compat; [exact Hi0 | lra].
    + apply Qmult_lt_r with N; [exact HN|].
      assert (E : (inject_Z (Z.of_nat i) * (duration / N) * N
                   == inject_Z (Z.of_nat i) * duration)%Q) by (field; lra).
      rewrite E.
      assert (H1 : (inject_Z (Z.of_nat i) * duration < N * duration)%Q)
        by (apply Qmult_lt_compat_r; assumption).
      lra.
  - intros i ti tj Hi Hj.
    destruct (@time_grid_nth _ _ _ _ Hd Hr Hi) as [_ Eti].
    destruct (@time_grid_nth _ _ _ _ Hd Hr Hj) as [Hlt Etj].
    fold N in Eti, Etj.
    assert (Hstep : (0 < duration / N)%Q) by (apply grid_step_pos; [exact Hd|lia]).
    rewrite Eti, Etj, Nat2Z.inj_succ. unfold Z.succ.
    rewrite inject_Z_plus. change (inject_Z 1) with 1%Q.
    set (a := inject_Z (Z.of_nat i)). set (st := (duration / N)%Q) in *.
    split; [lra | ring].
Qed.

Lemma time_grid_is_half_open_witness :
  exists t,
    time_grid PLAY_DURATION_S SAMPLE_RATE = Ok t
    /\ (forall i ti, nth_error t i = Some ti ->
          (ti == inject_Z (Z.of_nat i)
                 * (PLAY_DURATION_S
                    / inject_Z (py_int (inject_Z SAMPLE_RATE * PLAY_DURATION_S))))%Q
          /\ (0 <= ti)%Q /\ (ti < PLAY_DURATION_S)%Q)
    /\ (forall i ti tj, nth_error t i = Some ti -> nth_error t (S i) = Some tj ->
          (ti < tj)%Q
          /\ (tj - ti
              == PLAY_DURATION_S
                 / inject_Z (py_int (inject_Z SAMPLE_RATE * PLAY_DURATION_S)))%Q).
Proof.
  apply (@time_grid_is_half_open PLAY_DURATION_S SAMPLE_RATE); reflexivity.
Defined.

(** The preview window [max(0.001, min(3 / frequency_hz, 0.2))] lasts
    between one and two hundred milliseconds whatever the frequency; it is
    three periods long exactly for frequencies from 15 Hz to 3000 Hz, 200 ms
    below and 1 ms above. *)
Theorem plot_duration_window (f : Q) :
  (0 < f)%Q ->
  ((1 # 1000) <= plot_duration (PFin f))%Q
  /\ (plot_duration (PFin f) <= (2 # 10))%Q
  /\ ((15 <= f)%Q -> (f <= 3000)%Q -> (plot_duration (PFin f) == 3 / f)%Q)
  /\ ((f <= 15)%Q -> (plot_duration (PFin f) == 2 # 10)%Q)
  /\ ((3000 <= f)%Q -> (plot_duration (PFin f) == 1 # 1000)%Q).
Proof.
  intros Hf. unfold plot_duration, py_max, py_min, NUM_PERIODS_TO_PLOT.
  assert (E : (3 / f * f == 3)%Q) by (field; lra).
  set (q := (3 / f)%Q) in *.
  destruct (Qle_bool q (2 # 10)) eqn:E1.
  - apply Qle_bool_iff in E1.
    destruct (Qle_bool q (1 # 1000)) eqn:E2.
    + apply Qle_bool_iff in E2.
      repeat match goal with |- _ /\ _ => split end; intros;
        try reflexivity; nra.
    + assert (Hgt : ((1 # 1000) < q)%Q).
      { apply Qnot_le_lt. intros H. apply Qle_bool_iff in H. congruence. }
      repeat match goal with |- _ /\ _ => split end; intros;
        try reflexivity; nra.
  - assert (Hgt : ((2 # 10) < q)%Q).
    { apply Qnot_le_lt. intros H. apply Qle_bool_iff in H. congruence. }
    cbn.
    repeat match goal with |- _ /\ _ => split end; intros;
      try reflexivity; nra.
Qed.

Lemma plot_duration_window_witness :
  ((1 # 1000) <= plot_duration (PFin 440))%Q
  /\ (plot_duration (PFin 440) <= (2 # 10))%Q
  /\ ((15 <= 440)%Q -> (440 <= 3000)%Q -> (plot_duration (PFin 440) == 3 / 440)%Q)
  /\ ((440 <= 15)%Q -> (plot_duration (PFin 440) == 2 # 10)%Q)
  /\ ((3000 <= 440)%Q -> (plot_duration (PFin 440) == 1 # 1000)%Q).
Proof.
  apply (@plot_duration_window 440). reflexivity.
Defined.

(** ** The first sample *)





(* ================================================================== *)
(** ** The signed-area plot *)

(** Where the two fills of the signed-area plot go: [f] is positive, and
    the red fill applies, exactly on [-2 < x < 0] and [x > 3]; it is
    negative, and the blue fill applies, exactly on [x < -2] and
    [0 < x < 3]; it vanishes exactly at -2, 0 and 3. *)
Theorem signed_area_sign_regions (x : Q) :
  ((0 < SignedArea.f x)%Q <-> ((-2 < x)%Q /\ (x < 0)%Q) \/ (3 < x)%Q)
  /\ ((SignedArea.f x < 0)%Q <-> (x < -2)%Q \/ ((0 < x)%Q /\ (x < 3)%Q))
  /\ ((SignedArea.f x == 0)%Q <-> (x == -2)%Q \/ (x == 0)%Q \/ (x == 3)%Q).
Proof.
  unfold SignedArea.f.
  assert (E : (x ^ 3 - x ^ 2 - 6 * x == x * (x - 3) * (x + 2))%Q) by ring.
  rewrite E. clear E.
  destruct (Q_dec x (-2)) as [[H2|H2]|H2];
    destruct (Q_dec x 0) as [[H0|H0]|H0];
    destruct (Q_dec x 3) as [[H3|H3]|H3];
    try (exfalso; lra);
    (split; [|split]); split; intros H;
      try (exfalso; nra); try nra;
      try (left; nra); try (right; nra);
      try (right; left; nra); try (right; right; nra);
      try (left; split; nra); try (right; split; nra).
Qed.

(** The 500 sample points run from -3 to 4 inclusive, and none of them is
    a root of [f]: at every sample exactly one of the two masks holds. *)
Theorem signed_area_samples_are_coloured :
  List.length SignedArea.x = 500%nat
  /\ (nth 0 SignedArea.x 0 == -3)%Q
  /\ (nth 499 SignedArea.x 0 == 4)%Q
  /\ (forall v, In v SignedArea.x -> (-3 <= v)%Q /\ (v <= 4)%Q)
  /\ (forall i, (i < 500)%nat ->
        nth i (SignedArea.positive_mask SignedArea.y) false
        = negb (nth i (SignedArea.negative_mask SignedArea.y) true)).
Proof.
  split; [reflexivity|]. split; [reflexivity|]. split; [reflexivity|]. split.
  - intros v Hv. unfold SignedArea.x, SignedArea.linspace in Hv.
    apply in_map_iff in Hv. destruct Hv as (i & <- & Hi).
    apply in_seq in Hi.
    assert (H0 : (0 <= inject_Z (Z.of_nat i))%Q).
    { change 0%Q with (inject_Z 0). rewrite <- Zle_Qle. lia. }
    assert (H1 : (inject_Z (Z.of_nat i) <= 499)%Q).
    { change 499%Q with (inject_Z 499). rewrite <- Zle_Qle. lia. }
    change (inject_Z (Z.of_nat (500 - 1))) with 499%Q.
    set (a := inject_Z (Z.of_nat i)) in *.
    assert (E : (-3 + a * ((4 - -3) / 499) == -3 + a * (7 # 499))%Q) by field.
    rewrite E. split; lra.
  - assert (Hall : forallb (fun i =>
               Bool.eqb (nth i (SignedArea.positive_mask SignedArea.y) false)
                        (negb (nth i (SignedArea.negative_mask SignedArea.y) true)))
               (seq 0 500) = true) by (vm_compute; reflexivity).
    intros i Hi. rewrite forallb_forall in Hall.
    apply Bool.eqb_prop. apply Hall. apply in_seq. lia.
Qed.

(* ================================================================== *)
(** ** The approximation scene *)

Section SceneFacts.

Local Open Scope Q_scope.

Lemma inject_Z_pos (n : Z) : (0 < n)%Z -> 0 < inject_Z n.
Proof. intros H. change 0 with (inject_Z 0). now rewrite <- Zlt_Qlt. Qed.

(** [k * floor(y) <= floor(k * y)] for a positive integer [k]. *)
Lemma Qfloor_scale (k : Z) (y : Q) :
  (0 < k)%Z -> (k * Qfloor y <= Qfloor (inject_Z k * y))%Z.
Proof.
  intros Hk.
  rewrite <- (Qfloor_Z (k * Qfloor y)). apply Qfloor_resp_le.
  rewrite inject_Z_mult.
  pose proof (Qfloor_le y) as Hy. pose proof (inject_Z_pos Hk) as Hq.
  apply Qmult_le_l; assumption.
Qed.

Lemma Qsquare_nonneg (a : Q) : 0 <= a * a.
Proof.
  destruct (Qlt_le_dec a 0) as [H|H].
  - assert (E : a * a == (- a) * (- a)) by ring.
    rewrite E. apply Qmult_le_0_compat; lra.
  - apply Qmult_le_0_compat; lra.
Qed.

Lemma simple_func_le (n : Z) (x : Q) :
  (0 < n)%Z -> simple_func n x <= func_to_approximate x.
Proof.
  intros Hn. unfold simple_func.
  apply Qle_shift_div_r; [now apply inject_Z_pos | apply Qfloor_le].
Qed.

Lemma simple_func_within (n : Z) (x : Q) :
  (0 < n)%Z -> func_to_approximate x < simple_func n x + 1 / inject_Z n.
Proof.
  intros Hn. pose proof (inject_Z_pos Hn) as Hq. unfold simple_func.
  pose proof (Qlt_floor (func_to_approximate x * inject_Z n)) as Hhi.
  rewrite inject_Z_plus in Hhi. change (inject_Z 1) with 1 in Hhi.
  set (k := inject_Z (Qfloor (func_to_approximate x * inject_Z n))) in *.
  apply Qmult_lt_r with (inject_Z n); [exact Hq|].
  assert (E : (k / inject_Z n + 1 / inject_Z n) * inject_Z n == k + 1)
    by (field; lra).
  rewrite E. exact Hhi.
Qed.

End SceneFacts.

Lemma func_to_approximate_bounds (x : Q) :
  (-8 <= x)%Q -> (x <= 8)%Q ->
  ((1 # 4) <= func_to_approximate x)%Q
  /\ (func_to_approximate x <= (13 # 4))%Q
  /\ (func_to_approximate x < func_max_val)%Q
  /\ (0 <= norm (func_to_approximate x))%Q
  /\ (norm (func_to_approximate x) <= 1)%Q.
Proof.
  intros Hlo Hhi. unfold func_to_approximate, norm, func_max_val.
  assert (E1 : ((3 # 256) * x ^ 3 - (9 # 16) * x + (7 # 4) - (1 # 4)
                == (3 # 256) * ((x - 4) * (x - 4)) * (x + 8))%Q) by ring.
  assert (E2 : ((13 # 4) - ((3 # 256) * x ^ 3 - (9 # 16) * x + (7 # 4))
                == (3 # 256) * ((x + 4) * (x + 4)) * (8 - x))%Q) by ring.
  pose proof (Qsquare_nonneg (x - 4)) as S1.
  pose proof (Qsquare_nonneg (x + 4)) as S2.
  assert (P1 : (0 <= (3 # 256) * ((x - 4) * (x - 4)) * (x + 8))%Q).
  { apply Qmult_le_0_compat; [apply Qmult_le_0_compat|]; lra. }
  assert (P2 : (0 <= (3 # 256) * ((x + 4) * (x + 4)) * (8 - x))%Q).
  { apply Qmult_le_0_compat; [apply Qmult_le_0_compat|]; lra. }
  set (v := ((3 # 256) * x ^ 3 - (9 # 16) * x + (7 # 4))%Q) in *.
  assert (Hv1 : ((1 # 4) <= v)%Q) by lra.
  assert (Hv2 : (v <= (13 # 4))%Q) by lra.
  split; [exact Hv1|]. split; [exact Hv2|]. split; [lra|].
  assert (En : ((v - 0) / ((35 # 10) - 0) == v * (10 # 35))%Q) by field.
  rewrite En. split; lra.
Qed.

(** On the scene's domain the cubic stays between 0.25 and 3.25, below
    [func_max_val]: every level the colour map is asked for lies in
    [[0, 1]]. *)
Theorem func_to_approximate_range (x : Q) :
  (-8 <= x)%Q -> (x <= 8)%Q ->
  ((1 # 4) <= func_to_approximate x)%Q
  /\ (func_to_approximate x <= (13 # 4))%Q
  /\ (func_to_approximate x < func_max_val)%Q
  /\ (0 <= norm (func_to_approximate x))%Q
  /\ (norm (func_to_approximate x) <= 1)%Q.
Proof.
  intros Hlo Hhi. exact (func_to_approximate_bounds Hlo Hhi).
Qed.

Lemma func_to_approximate_range_witness :
  ((1 # 4) <= func_to_approximate 4)%Q
  /\ (func_to_approximate 4 <= (13 # 4))%Q
  /\ (func_to_approximate 4 < func_max_val)%Q
  /\ (0 <= norm (func_to_approximate 4))%Q
  /\ (norm (func_to_approximate 4) <= 1)%Q.
Proof.
  apply (@func_to_approximate_range 4); vm_compute; discriminate.
Defined.

(** Refining never lowers the approximation: for a level [n > 0] and a
    multiple [k * n] of it (the scene doubles [n] at each step),
    [simple_func n x <= simple_func (k * n) x <= f(x)], and
    [n * simple_func n x] is an integer. *)
Theorem simple_func_refines (n k : Z) (x : Q) :
  (0 < n)%Z -> (0 < k)%Z ->
  (simple_func n x <= simple_func (k * n) x)%Q
  /\ (simple_func (k * n) x <= func_to_approximate x)%Q
  /\ (simple_func n x * inject_Z n
      == inject_Z (Qfloor (func_to_approximate x * inject_Z n)))%Q.
Proof.
  intros Hn Hk.
  assert (Hkn : (0 < k * n)%Z) by lia.
  pose proof (inject_Z_pos Hn) as Hqn. pose proof (inject_Z_pos Hk) as Hqk.
  pose proof (inject_Z_pos Hkn) as Hqkn.
  split; [|split].
  - unfold simple_func.
    set (y := (func_to_approximate x * inject_Z n)%Q).
    assert (Ey : (func_to_approximate x * inject_Z (k * n) == inject_Z k * y)%Q).
    { unfold y. rewrite inject_Z_mult. ring. }
    rewrite (Qfloor_comp _ _ Ey).
    pose proof (Qfloor_scale y Hk) as Hs.
    rewrite Zle_Qle, inject_Z_mult in Hs.
    apply Qle_shift_div_l; [exact Hqkn|].
    rewrite inject_Z_mult.
    assert (E : (inject_Z (Qfloor y) / inject_Z n * (inject_Z k * inject_Z n)
                 == inject_Z k * inject_Z (Qfloor y))%Q) by (field; lra).
    rewrite E. exact Hs.
  - now apply simple_func_le.
  - unfold simple_func. field. lra.
Qed.

Lemma simple_func_refines_witness :
  (simple_func 4 2 <= simple_func (2 * 4) 2)%Q
  /\ (simple_func (2 * 4) 2 <= func_to_approximate 2)%Q
  /\ (simple_func 4 2 * inject_Z 4
      == inject_Z (Qfloor (func_to_approximate 2 * inject_Z 4)))%Q.
Proof.
  apply (@simple_func_refines 4 2 2); reflexivity.
Defined.

Section RectangleLoop.

Local Open Scope Q_scope.

Variable n : Z.

Lemma segment_rect_cases (start end_x y : Q) :
  (y <= (1 # 1000000) /\ segment_rect start end_x y = [])
  \/ ((1 # 1000000) < y
      /\ segment_rect start end_x y = [mkRect start (end_x - start) y (norm y)]).
Proof.
  unfold segment_rect. destruct (Qle_bool y (1 # 1000000)) eqn:E.
  - left. split; [now apply Qle_bool_iff | reflexivity].
  - right. split; [|reflexivity].
    apply Qnot_le_lt. intros H. apply Qle_bool_iff in H. congruence.
Qed.

Lemma laid_out_weaken (lo lo' hi : Q) (rects : list Rect) :
  lo' <= lo -> laid_out lo rects hi -> laid_out lo' rects hi.
Proof.
  destruct rects as [|r rects]; cbn; intros Hle H.
  - lra.
  - destruct H as (H1 & H2 & H3). repeat split; [lra | exact H2 | exact H3].
Qed.

Lemma last_cons_default {A : Type} (a d d' : A) (l : list A) :
  last (a :: l) d = last (a :: l) d'.
Proof.
  revert a. induction l as [|b l IH]; intros a; [reflexivity|].
  change (last (b :: l) d = last (b :: l) d'). apply IH.
Qed.

Lemma increasing_from_last (lo : Q) (xs : list Q) :
  increasing_from lo xs -> lo <= last xs lo.
Proof.
  revert lo. induction xs as [|x xs IH]; intros lo H.
  - cbn. lra.
  - destruct H as [H1 H2]. specialize (IH x H2).
    destruct xs as [|x' xs'].
    + cbn. lra.
    + change (last (x :: x' :: xs') lo) with (last (x' :: xs') lo).
      rewrite (last_cons_default x' lo x). lra.
Qed.

Lemma increasing_from_lt (lo : Q) (xs : list Q) (x : Q) :
  increasing_from lo xs -> In x xs -> lo < x.
Proof.
  revert lo. induction xs as [|a xs IH]; intros lo H Hin; [contradiction|].
  destruct H as [H1 H2]. destruct Hin as [->|Hin]; [exact H1|].
  exact (Qlt_trans _ _ _ H1 (IH a H2 Hin)).
Qed.

(** The loop lays its rectangles out from the running segment start to
    the start of the segment that is open when it ends. *)
Lemma rect_loop_laid_out (xs : list Q) :
  forall y start prev rects y' start',
    rect_loop n xs y start = (rects, y', start') ->
    start <= prev -> increasing_from prev xs ->
    laid_out start rects start' /\ start' <= last xs prev.
Proof.
  induction xs as [|x xs IH]; intros y start prev rects y' start' Hl Hs Hinc.
  - cbn in Hl. inversion Hl; subst. cbn. split; [lra | exact Hs].
  - destruct Hinc as [Hpx Hinc]. cbn [rect_loop] in Hl.
    assert (Hlast : last (x :: xs) prev = last xs x).
    { destruct xs as [|x' xs']; [reflexivity|].
      cbn [last]. apply last_cons_default. }
    rewrite Hlast.
    destruct (negb (np_isclose (simple_func n x) y)).
    + destruct (rect_loop n xs (simple_func n x) x) as [[rest y1] s1] eqn:Er.
      inversion Hl; subst. clear Hl.
      destruct (IH _ _ x _ _ _ Er (Qle_refl x) Hinc) as [Hlay Hend].
      split; [|exact Hend].
      destruct (segment_rect_cases start x y) as [[_ ->]|[_ ->]]; cbn.
      * apply laid_out_weaken with x; [lra | exact Hlay].
      * repeat split; [lra | lra |].
        apply laid_out_weaken with x; [lra | exact Hlay].
    + apply (IH _ _ x _ _ _ Hl); [lra | exact Hinc].
Qed.

(** What a rectangle of the loop stands on: its height is the step
    function at its left edge, and every sample point it covers has a
    step-function value that [np.isclose] accepts as that height. *)
Lemma rect_loop_heights (xs : list Q) :
  forall y start prev seen rects y' start',
    rect_loop n xs y start = (rects, y', start') ->
    y = simple_func n start ->
    start <= prev -> increasing_from prev xs ->
    (forall x, In x seen ->
               start <= x /\ x <= prev /\ np_isclose (simple_func n x) y = true) ->
    (forall r, In r rects ->
       start <= rect_x r
       /\ (1 # 1000000) < rect_height r
       /\ rect_height r = simple_func n (rect_x r)
       /\ rect_norm r = norm (rect_height r)
       /\ forall x, In x (seen ++ xs)%list ->
            rect_x r <= x -> x < rect_x r + rect_width r ->
            np_isclose (simple_func n x) (rect_height r) = true)
    /\ y' = simple_func n start'
    /\ start <= start'
    /\ forall x, In x (seen ++ xs)%list -> start' <= x ->
                 np_isclose (simple_func n x) y' = true.
Proof.
  induction xs as [|x xs IH];
    intros y start prev seen rects y' start' Hl Hy Hs Hinc Hseen.
  - cbn in Hl. inversion Hl; subst. split; [intros r []|].
    split; [reflexivity|]. split; [lra|].
    intros x Hx _. rewrite app_nil_r in Hx. now apply Hseen.
  - destruct Hinc as [Hpx Hinc]. cbn [rect_loop] in Hl.
    destruct (np_isclose (simple_func n x) y) eqn:Hc; cbn [negb] in Hl.
    + (* same segment *)
      assert (Hseen' : forall x0, In x0 (seen ++ [x])%list ->
                 start <= x0 /\ x0 <= x
                 /\ np_isclose (simple_func n x0) y = true).
      { intros x0 Hx0. apply in_app_or in Hx0. destruct Hx0 as [Hx0|[<-|[]]].
        - destruct (Hseen _ Hx0) as (A & B & C). repeat split; [lra | lra | exact C].
        - repeat split; [lra | lra | exact Hc]. }
      assert (Hsx : start <= x) by lra.
      destruct (IH _ _ x _ _ _ _ Hl Hy Hsx Hinc Hseen') as (Hr & Hy' & Hss & Hfin).
      rewrite <- app_assoc in Hr, Hfin. cbn [app] in Hr, Hfin.
      split; [exact Hr|]. split; [exact Hy'|]. split; [exact Hss | exact Hfin].
    + (* a new segment starts at x *)
      destruct (rect_loop n xs (simple_func n x) x) as [[rest y1] s1] eqn:Er.
      inversion Hl; subst rects y1 s1. clear Hl.
      assert (Hone : forall x0, In x0 [x] ->
                 x <= x0 /\ x0 <= x
                 /\ np_isclose (simple_func n x0) (simple_func n x) = true).
      { intros x0 [<-|[]]. split; [lra|]. split; [lra|].
        unfold np_isclose. apply Qle_bool_iff.
        assert (E : simple_func n x - simple_func n x == 0) by ring.
        rewrite E. change (Qabs.Qabs 0) with 0.
        pose proof (Qabs.Qabs_nonneg (simple_func n x)) as Hnn.
        set (a := Qabs.Qabs (simple_func n x)) in *. lra. }
      destruct (IH _ _ x [x] _ _ _ Er eq_refl (Qle_refl x) Hinc Hone)
        as (Hr & Hy' & Hss & Hfin).
      assert (Hold : forall x0, In x0 seen -> x0 < x).
      { intros x0 Hx0. destruct (Hseen _ Hx0) as (_ & B & _). lra. }
      split; [|split; [exact Hy'|split; [lra|]]].
      * intros r Hin. apply in_app_or in Hin. destruct Hin as [Hin|Hin].
        -- destruct (segment_rect_cases start x y) as [[_ E]|[Hpos E]];
             rewrite E in Hin; [contradiction|].
           destruct Hin as [<-|[]]. cbn.
           repeat split; try lra; try assumption; try reflexivity.
           intros x0 Hx0 Hlo Hhi.
           apply in_app_or in Hx0. destruct Hx0 as [Hx0|[<-|Hx0]].
           ++ now apply Hseen.
           ++ exfalso. lra.
           ++ exfalso. pose proof (@increasing_from_lt _ _ _ Hinc Hx0). lra.
        -- destruct (Hr r Hin) as (A & B & C & D & E).
           repeat split; try assumption; [lra|].
           intros x0 Hx0 Hlo Hhi.
           apply in_app_or in Hx0. destruct Hx0 as [Hx0|Hx0].
           ++ exfalso. pose proof (Hold _ Hx0). lra.
           ++ apply E; assumption.
      * intros x0 Hx0 Hlo.
        apply in_app_or in Hx0. destruct Hx0 as [Hx0|Hx0].
        -- exfalso. pose proof (Hold _ Hx0). lra.
        -- apply Hfin; assumption.
Qed.

(** When no segment is dropped for being too low, the widths of the
    loop's rectangles add up to the distance it has travelled. *)
Lemma rect_loop_widths (xs : list Q) :
  forall y start rects y' start',
    rect_loop n xs y start = (rects, y', start') ->
    y = simple_func n start ->
    (forall x, In x (start :: xs) -> (1 # 1000000) < simple_func n x) ->
    fold_right (fun r acc => rect_width r + acc) 0 rects == start' - start
    /\ (1 # 1000000) < y'.
Proof.
  induction xs as [|x xs IH]; intros y start rects y' start' Hl Hy Hpos.
  - cbn in Hl. inversion Hl; subst. cbn. split; [ring|].
    apply Hpos. now left.
  - cbn [rect_loop] in Hl.
    destruct (negb (np_isclose (simple_func n x) y)).
    + destruct (rect_loop n xs (simple_func n x) x) as [[rest y1] s1] eqn:Er.
      inversion Hl; subst rects y1 s1. clear Hl.
      destruct (IH _ _ _ _ _ Er eq_refl) as [Hsum Hy'].
      { intros x0 Hx0. apply Hpos. now right. }
      split; [|exact Hy'].
      destruct (segment_rect_cases start x y) as [[Hle _]|[_ ->]].
      * exfalso. subst y. specialize (Hpos start (or_introl eq_refl)). lra.
      * cbn. rewrite Hsum. ring.
    + apply (IH _ _ _ _ _ Hl Hy).
      intros x0 [<-|Hx0]; apply Hpos; [now left | right; now right].
Qed.

End RectangleLoop.

Section Arange.

Local Open Scope Q_scope.

Variables (start stop step : Q).
Hypothesis step_pos : 0 < step.

Lemma np_arange_in (v : Q) :
  In v (np_arange start stop step) ->
  exists i : nat,
    v = start + inject_Z (Z.of_nat i) * step /\ start <= v /\ v < stop.
Proof.
  unfold np_arange. intros Hin. apply in_map_iff in Hin.
  destruct Hin as (i & <- & Hi). apply in_seq in Hi.
  exists i. split; [reflexivity|].
  assert (H0 : 0 <= inject_Z (Z.of_nat i)).
  { change 0 with (inject_Z 0). rewrite <- Zle_Qle. lia. }
  split.
  - assert (0 <= inject_Z (Z.of_nat i) * step)
      by (apply Qmult_le_0_compat; lra).
    lra.
  - set (q := (stop - start) / step) in *.
    assert (Hi' : (Z.of_nat i <= Qceiling q - 1)%Z) by lia.
    rewrite Zle_Qle in Hi'. pose proof (Qceiling_lt q) as Hq.
    assert (Hlt : inject_Z (Z.of_nat i) < q) by lra.
    apply Qmult_lt_r with (z := step) in Hlt; [|exact step_pos].
    assert (E : q * step == stop - start) by (unfold q; field; lra).
    rewrite E in Hlt. lra.
Qed.

Lemma map_seq_increasing (m : nat) :
  forall (k : nat) (lo : Q),
    lo < start + inject_Z (Z.of_nat k) * step ->
    increasing_from lo
      (map (fun i => start + inject_Z (Z.of_nat i) * step) (seq k m)).
Proof.
  induction m as [|m IH]; intros k lo Hlo; cbn; [exact I|].
  split; [exact Hlo|]. apply IH.
  rewrite Nat2Z.inj_succ. unfold Z.succ. rewrite inject_Z_plus.
  change (inject_Z 1) with 1. set (a := inject_Z (Z.of_nat k)). lra.
Qed.

(** A non-empty [arange] starts at [start] and increases. *)
Lemma np_arange_increasing :
  (0 < Qceiling ((stop - start) / step))%Z ->
  exists x0 xs,
    np_arange start stop step = x0 :: xs
    /\ x0 == start /\ increasing_from x0 xs.
Proof.
  intros Hn. unfold np_arange.
  destruct (Z.to_nat (Qceiling ((stop - start) / step))) as [|m] eqn:E; [lia|].
  cbn [seq map]. eexists. eexists. split; [reflexivity|]. split.
  - change (inject_Z (Z.of_nat 0)) with 0. ring.
  - apply map_seq_increasing.
    change (inject_Z (Z.of_nat 0)) with 0. change (inject_Z (Z.of_nat 1)) with 1.
    lra.
Qed.

End Arange.

Section DefaultScene.

Local Open Scope Q_scope.

Lemma last_cons_last {A : Type} (a d : A) (l : list A) :
  last (a :: l) d = last l a.
Proof.
  revert a d. induction l as [|b l IH]; intros a d; [reflexivity|].
  change (last (b :: l) d = last (b :: l) a).
  now rewrite (IH b d), (IH b a).
Qed.

(** The sample points of the default call: [-8, -7.999, ..., 8]. *)
Lemma default_samples :
  exists x0 xs,
    np_arange (fst default_domain) (snd default_domain + default_dx) default_dx
    = x0 :: xs
    /\ x0 == -8 /\ increasing_from x0 xs
    /\ last (x0 :: xs) 0 == 8
    /\ forall v, In v (x0 :: xs) -> -8 <= v /\ v <= 8.
Proof.
  assert (Hstep : 0 < default_dx) by reflexivity.
  assert (HN : Qceiling ((snd default_domain + default_dx - fst default_domain)
                         / default_dx) = 16001%Z) by reflexivity.
  destruct (@np_arange_increasing (fst default_domain)
              (snd default_domain + default_dx) default_dx Hstep)
    as (x0 & xs & E & Hx0 & Hinc); [rewrite HN; lia|].
  exists x0, xs. split; [exact E|]. split; [exact Hx0|]. split; [exact Hinc|].
  split.
  - rewrite <- E. unfold np_arange. rewrite HN.
    replace (Z.to_nat 16001) with (S (Z.to_nat 16000)) by lia.
    rewrite seq_S, map_app. cbn [map]. rewrite last_last.
    cbn [Nat.add]. rewrite Z2Nat.id by lia. reflexivity.
  - intros v Hv. rewrite <- E in Hv.
    destruct (np_arange_in _ _ Hstep _ Hv) as (i & -> & Hlo & Hhi).
    split; [exact Hlo|].
    cbn [fst snd default_domain] in *. unfold default_dx in *.
    assert (Hi : inject_Z (Z.of_nat i) < 16001).
    { set (a := inject_Z (Z.of_nat i)) in *. lra. }
    change 16001 with (inject_Z 16001) in Hi. rewrite <- Zlt_Qlt in Hi.
    assert (Hi' : (Z.of_nat i <= 16000)%Z) by lia.
    rewrite Zle_Qle in Hi'. change (inject_Z 16000) with 16000 in Hi'.
    set (a := inject_Z (Z.of_nat i)) in *. lra.
Qed.

(** Two values of the step function on the domain that [np.isclose]
    takes for equal are equal, for every level up to 30000. *)
Lemma isclose_simple_func (n : Z) (u v : Q) :
  (0 < n)%Z -> (n <= 30000)%Z ->
  -8 <= v -> v <= 8 ->
  np_isclose (simple_func n u) (simple_func n v) = true ->
  simple_func n u = simple_func n v.
Proof.
  intros Hn Hn' Hlo Hhi Hc.
  pose proof (inject_Z_pos Hn) as Hq.
  assert (Hq' : inject_Z n <= 30000).
  { change 30000 with (inject_Z 30000). now rewrite <- Zle_Qle. }
  unfold np_isclose in Hc. apply Qle_bool_iff in Hc.
  destruct (func_to_approximate_bounds Hlo Hhi) as (Hf1 & Hf2 & _).
  pose proof (simple_func_le v Hn) as Hsv.
  assert (Hv0 : 0 <= simple_func n v).
  { unfold simple_func. apply Qle_shift_div_l; [exact Hq|].
    assert (E : 0 * inject_Z n == inject_Z 0) by ring. rewrite E.
    rewrite <- Zle_Qle. apply Qfloor_nonneg.
    apply Qmult_le_0_compat; lra. }
  rewrite (Qabs.Qabs_pos _ Hv0) in Hc.
  apply Qabs.Qabs_Qle_condition in Hc. destruct Hc as [Hc1 Hc2].
  set (p := Qfloor (func_to_approximate u * inject_Z n)) in *.
  set (q := Qfloor (func_to_approximate v * inject_Z n)) in *.
  assert (Eu : simple_func n u * inject_Z n == inject_Z p)
    by (unfold simple_func; fold p; field; lra).
  assert (Ev : simple_func n v * inject_Z n == inject_Z q)
    by (unfold simple_func; fold q; field; lra).
  set (a := simple_func n u) in *. set (b := simple_func n v) in *.
  assert (Hd1 : inject_Z p - inject_Z q < 1) by nra.
  assert (Hd2 : -1 < inject_Z p - inject_Z q) by nra.
  assert (Epq : p = q).
  { assert (H1 : inject_Z p < inject_Z (q + 1))
      by (rewrite inject_Z_plus; change (inject_Z 1) with 1; lra).
    assert (H2 : inject_Z q < inject_Z (p + 1))
      by (rewrite inject_Z_plus; change (inject_Z 1) with 1; lra).
    rewrite <- Zlt_Qlt in H1, H2. lia. }
  subst a b. unfold simple_func. fold p q. now rewrite Epq.
Qed.

End DefaultScene.

(** The rectangles come out from left to right and never overlap: over
    strictly increasing sample points they split into a run of rectangles
    of positive width, each starting at or after the end of the one before,
    followed by at most one last rectangle that reaches the last sample
    point and may have width zero. *)
Theorem rectangles_left_to_right (n : Z) (x0 : Q) (xs : list Q) :
  increasing_from x0 xs ->
  exists body tail mid,
    rectangles_over n (x0 :: xs) = Some (body ++ tail)%list
    /\ laid_out x0 body mid
    /\ (mid <= last (x0 :: xs) 0)%Q
    /\ (tail = []
        \/ exists r, tail = [r] /\ rect_x r = mid
                     /\ (0 <= rect_width r)%Q
                     /\ (rect_x r + rect_width r == last (x0 :: xs) 0)%Q).
Proof.
  intros Hinc. unfold rectangles_over.
  destruct (rect_loop n xs (simple_func n x0) x0) as [[rects y] mid] eqn:El.
  destruct (@rect_loop_laid_out n xs _ _ x0 _ _ _ El (Qle_refl x0) Hinc)
    as [Hlay Hend].
  rewrite <- (last_cons_last x0 0%Q xs) in Hend.
  exists rects, (segment_rect mid (last (x0 :: xs) 0%Q) y), mid.
  split; [reflexivity|]. split; [exact Hlay|]. split; [exact Hend|].
  destruct (segment_rect_cases mid (last (x0 :: xs) 0%Q) y) as [[_ ->]|[_ ->]].
  - now left.
  - right. eexists. split; [reflexivity|]. cbn [rect_x rect_width].
    set (e := last (x0 :: xs) 0%Q) in *.
    split; [reflexivity|]. split; [lra | ring].
Qed.

Lemma rectangles_left_to_right_witness :
  exists body tail mid,
    rectangles_over 2 [0; 1 # 2; 1; 2]%Q = Some (body ++ tail)%list
    /\ laid_out 0 body mid
    /\ (mid <= last [0; 1 # 2; 1; 2]%Q 0)%Q
    /\ (tail = []
        \/ exists r, tail = [r] /\ rect_x r = mid
                     /\ (0 <= rect_width r)%Q
                     /\ (rect_x r + rect_width r == last [0; 1 # 2; 1; 2]%Q 0)%Q).
Proof.
  apply (@rectangles_left_to_right 2 0%Q [1 # 2; 1; 2]%Q).
  cbn. repeat split.
Defined.

(** With the default domain and step, for every level from 1 to 30000,
    each rectangle stays under the curve at every sample point it covers:
    its height is the step function there, at most [f(x)] and less than
    [1/n] below it; its colour level is [height / 3.5], between 0 and 1. *)
Theorem rectangles_stay_under_the_curve (n : Z) :
  (0 < n)%Z -> (n <= 30000)%Z ->
  exists rects,
    create_simple_function_rectangles n default_domain default_dx = Some rects
    /\ forall r, In r rects ->
         ((1 # 1000000) < rect_height r)%Q
         /\ rect_norm r = norm (rect_height r)
         /\ (0 <= rect_norm r)%Q /\ (rect_norm r <= 1)%Q
         /\ forall x,
              In x (np_arange (fst default_domain)
                              (snd default_domain + default_dx) default_dx) ->
              (rect_x r <= x)%Q -> (x < rect_x r + rect_width r)%Q ->
              rect_height r = simple_func n x
              /\ (rect_height r <= func_to_approximate x)%Q
              /\ (func_to_approximate x < rect_height r + 1 / inject_Z n)%Q.
Proof.
  intros Hn Hn'.
  destruct default_samples as (x0 & xs & E & Hx0 & Hinc & Hlast & Hdom).
  unfold create_simple_function_rectangles. rewrite E.
  unfold rectangles_over.
  destruct (rect_loop n xs (simple_func n x0) x0) as [[rects y] mid] eqn:El.
  assert (Hseen : forall x, In x [x0] ->
            (x0 <= x)%Q /\ (x <= x0)%Q
            /\ np_isclose (simple_func n x) (simple_func n x0) = true).
  { intros x [<-|[]]. split; [lra|]. split; [lra|].
    unfold np_isclose. apply Qle_bool_iff.
    assert (E0 : (simple_func n x0 - simple_func n x0 == 0)%Q) by ring.
    rewrite E0. change (Qabs.Qabs 0) with 0%Q.
    pose proof (Qabs.Qabs_nonneg (simple_func n x0)) as Hnn.
    set (a := Qabs.Qabs (simple_func n x0)) in *. lra. }
  destruct (@rect_loop_heights n xs _ _ x0 [x0] _ _ _ El eq_refl (Qle_refl x0)
              Hinc Hseen)
    as (Hr & Hy & Hmid & Hfin).
  cbn [app] in Hr, Hfin.
  assert (Hunder : forall h x,
            In x (x0 :: xs) -> (exists u, In u (x0 :: xs) /\ h = simple_func n u) ->
            np_isclose (simple_func n x) h = true ->
            h = simple_func n x
            /\ (h <= func_to_approximate x)%Q
            /\ (func_to_approximate x < h + 1 / inject_Z n)%Q).
  { intros h x Hx (u & Hu & ->) Hc.
    destruct (Hdom _ Hu) as [Hu1 Hu2].
    assert (Eq : simple_func n x = simple_func n u)
      by (apply isclose_simple_func; assumption).
    rewrite <- Eq. split; [reflexivity|].
    split; [now apply simple_func_le | now apply simple_func_within]. }
  assert (Hnorm : forall h u, In u (x0 :: xs) -> h = simple_func n u ->
            ((1 # 1000000) < h)%Q -> (0 <= norm h)%Q /\ (norm h <= 1)%Q).
  { intros h u Hu -> Hh. destruct (Hdom _ Hu) as [Hu1 Hu2].
    destruct (func_to_approximate_bounds Hu1 Hu2) as (_ & Hf2 & _).
    pose proof (simple_func_le u Hn) as Hle.
    unfold norm, func_max_val.
    set (v := simple_func n u) in *.
    assert (En : ((v - 0) / ((35 # 10) - 0) == v * (10 # 35))%Q) by field.
    rewrite En. split; lra. }
  (* the left edge of every rectangle is a sample point *)
  assert (Hedge : forall ys y1 st rs y2 s2,
            rect_loop n ys y1 st = (rs, y2, s2) ->
            (forall r, In r rs -> In (rect_x r) (st :: ys))
            /\ In s2 (st :: ys)).
  { induction ys as [|a ys IH]; intros y1 st rs y2 s2 Hl.
    - cbn in Hl. inversion Hl; subst. split; [intros r []|now left].
    - cbn [rect_loop] in Hl.
      destruct (negb (np_isclose (simple_func n a) y1)).
      + destruct (rect_loop n ys (simple_func n a) a) as [[rest y3] s3] eqn:Er.
        inversion Hl; subst. destruct (IH _ _ _ _ _ Er) as [A B].
        split.
        * intros r Hin. apply in_app_or in Hin. destruct Hin as [Hin|Hin].
          -- destruct (segment_rect_cases st a y1) as [[_ E1]|[_ E1]];
               rewrite E1 in Hin; [contradiction|].
             destruct Hin as [<-|[]]. now left.
          -- right. now apply A.
        * now right.
      + destruct (IH _ _ _ _ _ Hl) as [A B]. split.
        * intros r Hin. destruct (A r Hin) as [<-|Hin']; [now left|].
          right. now right.
        * destruct B as [<-|B]; [now left|]. right. now right. }
  destruct (Hedge _ _ _ _ _ _ El) as [Hedge1 Hedge2].
  eexists. split; [reflexivity|].
  intros r Hin. apply in_app_or in Hin. destruct Hin as [Hin|Hin].
  - destruct (Hr r Hin) as (_ & Hpos & Hh & Hnm & Hcov).
    destruct (Hnorm _ _ (Hedge1 r Hin) Hh Hpos) as [N1 N2].
    split; [exact Hpos|]. split; [exact Hnm|]. rewrite Hnm.
    split; [exact N1|]. split; [exact N2|].
    intros x Hx Hlo Hhi. apply Hunder; [exact Hx | | now apply Hcov].
    exists (rect_x r). split; [now apply Hedge1 | exact Hh].
  - destruct (segment_rect_cases mid (last (x0 :: xs) 0%Q) y) as [[_ E1]|[Hpos E1]];
      rewrite E1 in Hin; [contradiction|].
    destruct Hin as [<-|[]]. cbn.
    destruct (Hnorm _ _ Hedge2 Hy Hpos) as [N1 N2].
    split; [exact Hpos|]. split; [reflexivity|].
    split; [exact N1|]. split; [exact N2|].
    intros x Hx Hlo Hhi. apply Hunder; [exact Hx | | now apply Hfin].
    exists mid. split; [exact Hedge2 | exact Hy].
Qed.

Lemma rectangles_stay_under_the_curve_witness :
  exists rects,
    create_simple_function_rectangles 32 default_domain default_dx = Some rects
    /\ forall r, In r rects ->
         ((1 # 1000000) < rect_height r)%Q
         /\ rect_norm r = norm (rect_height r)
         /\ (0 <= rect_norm r)%Q /\ (rect_norm r <= 1)%Q
         /\ forall x,
              In x (np_arange (fst default_domain)
                              (snd default_domain + default_dx) default_dx) ->
              (rect_x r <= x)%Q -> (x < rect_x r + rect_width r)%Q ->
              rect_height r = simple_func 32 x
              /\ (rect_height r <= func_to_approximate x)%Q
              /\ (func_to_approximate x < rect_height r + 1 / inject_Z 32)%Q.
Proof.
  apply (@rectangles_stay_under_the_curve 32); lia.
Defined.

(** From level 4 on (and below one million) no segment is dropped: the
    widths of the rectangles of the default call add up to 16, the length
    of the domain, so together with their left-to-right layout they cover
    it without a gap. *)
Theorem rectangles_cover_the_domain (n : Z) :
  (4 <= n)%Z -> (n < 1000000)%Z ->
  exists rects,
    create_simple_function_rectangles n default_domain default_dx = Some rects
    /\ (fold_right (fun r acc => rect_width r + acc) 0 rects == 16)%Q.
Proof.
  intros Hn Hn'.
  assert (Hn0 : (0 < n)%Z) by lia.
  pose proof (inject_Z_pos Hn0) as Hq.
  destruct default_samples as (x0 & xs & E & Hx0 & Hinc & Hlast & Hdom).
  unfold create_simple_function_rectangles. rewrite E.
  unfold rectangles_over.
  destruct (rect_loop n xs (simple_func n x0) x0) as [[rects y] mid] eqn:El.
  assert (Hpos : forall x, In x (x0 :: xs) -> ((1 # 1000000) < simple_func n x)%Q).
  { intros x Hx. destruct (Hdom _ Hx) as [H1 H2].
    destruct (func_to_approximate_bounds H1 H2) as (Hf & _).
    unfold simple_func.
    assert (H4 : (4 <= inject_Z n)%Q).
    { change 4%Q with (inject_Z 4). now rewrite <- Zle_Qle. }
    assert (Hm : (inject_Z n < 1000000)%Q).
    { change 1000000%Q with (inject_Z 1000000). now rewrite <- Zlt_Qlt. }
    assert (Hone : (1 <= Qfloor (func_to_approximate x * inject_Z n))%Z).
    { change 1%Z with (Qfloor 1). apply Qfloor_resp_le. nra. }
    rewrite Zle_Qle in Hone. change (inject_Z 1) with 1%Q in Hone.
    apply Qlt_shift_div_l; [exact Hq|].
    set (k := inject_Z (Qfloor (func_to_approximate x * inject_Z n))) in *.
    lra. }
  destruct (@rect_loop_widths n xs _ _ _ _ _ El eq_refl Hpos) as [Hsum Hy].
  eexists. split; [reflexivity|].
  assert (Happ : forall a b : list Rect,
            (fold_right (fun r acc => rect_width r + acc) 0 (a ++ b)
             == fold_right (fun r acc => rect_width r + acc) 0 a
                + fold_right (fun r acc => rect_width r + acc) 0 b)%Q).
  { induction a as [|r a IH]; intros b; cbn; [ring|]. rewrite IH. ring. }
  rewrite Happ, Hsum.
  destruct (segment_rect_cases mid (last (x0 :: xs) 0%Q) y) as [[Hle _]|[_ ->]].
  - exfalso. lra.
  - cbn. rewrite Hlast, Hx0. ring.
Qed.

Lemma rectangles_cover_the_domain_witness :
  exists rects,
    create_simple_function_rectangles 4 default_domain default_dx = Some rects
    /\ (fold_right (fun r acc => rect_width r + acc) 0 rects == 16)%Q.
Proof.
  apply (@rectangles_cover_the_domain 4); lia.
Defined.

(* ================================================================== *)
(** ** More on the controller *)

Section ControllerFacts.

Lemma nth_error_list_set_same {A : Type} (l : list A) (i : nat) (v : A) :
  (i < List.length l)%nat -> nth_error (list_set l i v) i = Some v.
Proof.
  revert i. induction l as [|a l IH]; intros [|i] Hi; cbn in *; try lia.
  - reflexivity.
  - apply IH. lia.
Qed.

Lemma length_list_set {A : Type} (l : list A) (i : nat) (v : A) :
  List.length (list_set l i v) = List.length l.
Proof.
  revert i. induction l as [|a l IH]; intros [|i]; cbn; auto.
Qed.

Lemma nth_list_set_true (l : list bool) (i j : nat) :
  nth j l false = true -> nth j (list_set l i true) false = true.
Proof.
  revert i j. induction l as [|a l IH]; intros [|i] [|j] H; cbn in *; auto.
Qed.

Lemma nth_list_set_same (l : list bool) (i : nat) :
  (i < List.length l)%nat -> nth i (list_set l i true) false = true.
Proof.
  revert i. induction l as [|a l IH]; intros [|i] Hi; cbn in *; try lia; auto.
  apply IH. lia.
Qed.

End ControllerFacts.

(** The completion callback may run any number of times: running it twice
    leaves the application as running it once does, and it only ever
    touches the active flag and the button label. *)
Theorem callback_is_idempotent (s : WaveformApp) :
  let s1 := exec _update_ui_after_playback_change s in
  exec _update_ui_after_playback_change s1 = s1
  /\ threads s1 = threads s /\ events s1 = events s
  /\ audio_thread s1 = audio_thread s
  /\ stop_audio_event s1 = stop_audio_event s
  /\ plot s1 = plot s /\ errors_shown s1 = errors_shown s
  /\ after_queue s1 = after_queue s
  /\ (audio_active s1 = true -> audio_active s = true).
Proof.
  destruct s as [c m p f th ev act wv fv bt pl evs ths q errs].
  unfold exec, _update_ui_after_playback_change, bind, get, modify, ret,
    audio_thread_alive, thread_is_alive.
  cbn.
  destruct c; cbn; [repeat split; auto|].
  destruct m; cbn; [|repeat split; auto].
  destruct act; cbn.
  - destruct th as [t|]; cbn.
    + destruct (nth_error ths t) as [x|] eqn:Et; cbn.
      * destruct (th_alive x) eqn:Ea; cbn.
        -- destruct (String.eqb bt "Stop") eqn:Eb; cbn; rewrite ?Et; cbn;
             rewrite ?Ea; cbn; rewrite ?Eb; cbn; repeat split; auto.
        -- destruct (String.eqb bt "Play") eqn:Eb; cbn; rewrite ?Eb; cbn;
             repeat split; auto; discriminate.
      * destruct (String.eqb bt "Play") eqn:Eb; cbn; rewrite ?Eb; cbn;
          repeat split; auto; discriminate.
    + destruct (String.eqb bt "Play") eqn:Eb; cbn; rewrite ?Eb; cbn;
        repeat split; auto; discriminate.
  - destruct (String.eqb bt "Play") eqn:Eb; cbn; rewrite ?Eb; cbn;
      repeat split; auto.
Qed.





Section PlaySession.

Local Opaque dict_get py_float plot_duration waveform_generators.



End PlaySession.

Section PlayStore.

Lemma nth_error_fresh {A : Type} (l l' : list A) (a : A) :
  List.length l' = List.length l ->
  nth_error (l' ++ [a]) (List.length l) = Some a.
Proof.
  intros E. rewrite nth_error_app2 by lia. rewrite E, Nat.sub_diag. reflexivity.
Qed.


Lemma nth_true_in_range (l : list bool) (e : nat) :
  nth e l false = true -> (e < List.length l)%nat.
Proof.
  intros H. destruct (Nat.lt_ge_cases e (List.length l)) as [|Hge]; [assumption|].
  rewrite nth_overflow in H by lia. discriminate.
Qed.

Lemma events_kept (l : list bool) (e : nat) :
  nth e l false = true -> nth e (l ++ [false]) false = true.
Proof.
  intros H. rewrite app_nth1; [exact H | now apply nth_true_in_range].
Qed.




End PlayStore.

Section PlayTheorem.

Local Opaque dict_get py_float plot_duration waveform_generators.




End PlayTheorem.


(* ================================================================== *)
(** ** Sessions and live workers *)

Section SessionInvariant.

Lemma session_ok_iff (s : WaveformApp) :
  session_ok s <-> stores_linked s /\ workers_signalled s.
Proof.
  unfold session_ok, session_inv, stores_linked, workers_signalled, event_is_set.
  tauto.
Qed.

Variables (ths : list Thread) (evs : list bool) (cur cev : option nat).

(** Setting an Event. *)
Lemma session_inv_set (e : nat) (act : bool) :
  session_inv ths evs cur cev act ->
  session_inv ths (list_set evs e true) cur cev act.
Proof.
  intros (H1 & H2 & H3). split; [|split].
  - intros t th Ht. rewrite length_list_set. eauto.
  - exact H2.
  - intros t th Ht Ha. destruct (H3 t th Ht Ha) as [H|H]; [left|right; exact H].
    now apply nth_list_set_true.
Qed.

(** The Stop branch and the start of [on_closing]: clear the flag, set
    the application's Event. *)
Lemma session_inv_stop (act : bool) :
  session_inv ths evs cur cev act ->
  session_inv ths
    match cev with Some e => list_set evs e true | None => evs end
    cur cev false.
Proof.
  intros (H1 & H2 & H3). split; [|split].
  - intros t th Ht. destruct cev; rewrite ?length_list_set; eauto.
  - exact H2.
  - intros t th Ht Ha. left.
    destruct (H3 t th Ht Ha) as [H|[Hc _]].
    + destruct cev; [now apply nth_list_set_true | exact H].
    + destruct (H2 t Hc) as (th' & Ht' & ->).
      rewrite Ht in Ht'. inversion Ht'; subst th'.
      apply nth_list_set_same. eauto.
Qed.

(** The end of a worker. *)
Lemma session_inv_exit (t : nat) (x : Thread) (act : bool) :
  nth_error ths t = Some x ->
  session_inv ths evs cur cev act ->
  session_inv
    (list_set ths t (mkThread false (th_stop_event x) (th_audio_data x)
                              (th_wave_type x) (th_freq x)))
    evs cur cev act.
Proof.
  intros Hx (H1 & H2 & H3).
  assert (Hlt : (t < List.length ths)%nat)
    by (apply nth_error_Some; rewrite Hx; discriminate).
  assert (Hcase : forall i th,
            nth_error (list_set ths t
                         (mkThread false (th_stop_event x) (th_audio_data x)
                                   (th_wave_type x) (th_freq x))) i = Some th ->
            (i = t /\ th_alive th = false /\ th_stop_event th = th_stop_event x)
            \/ (i <> t /\ nth_error ths i = Some th)).
  { intros i th Hi. destruct (Nat.eq_dec t i) as [->|Hne].
    - rewrite nth_error_list_set_same in Hi by exact Hlt.
      inversion Hi; subst. left. auto.
    - rewrite nth_error_list_set_other in Hi by exact Hne. right. auto. }
  split; [|split].
  - intros i th Hi. destruct (Hcase i th Hi) as [(_ & _ & ->)|(_ & Hi')]; eauto.
  - intros i Hc. destruct (H2 i Hc) as (th & Hi & Hev).
    destruct (Nat.eq_dec t i) as [->|Hne].
    + rewrite nth_error_list_set_same by exact Hlt.
      eexists. split; [reflexivity|]. cbn.
      rewrite Hx in Hi. injection Hi as Hi. rewrite Hi. exact Hev.
    + rewrite nth_error_list_set_other by exact Hne. eauto.
  - intros i th Hi Ha. destruct (Hcase i th Hi) as [(_ & Hd & _)|(_ & Hi')].
    + congruence.
    + eauto.
Qed.

(** A new session on an idle application. *)
Lemma session_inv_new (w : list sample) (wave_type : string) (freq : pyfloat) :
  session_inv ths evs cur cev false ->
  session_inv
    (ths ++ [mkThread true (List.length evs) w wave_type freq])
    (evs ++ [false])
    (Some (List.length ths)) (Some (List.length evs)) true.
Proof.
  intros (H1 & H2 & H3).
  assert (Hcase : forall i th,
            nth_error (ths ++ [mkThread true (List.length evs) w wave_type freq]) i
            = Some th ->
            ((i < List.length ths)%nat /\ nth_error ths i = Some th)
            \/ (i = List.length ths
                /\ th = mkThread true (List.length evs) w wave_type freq)).
  { intros i th Hi. destruct (Nat.lt_ge_cases i (List.length ths)) as [Hlt|Hge].
    - rewrite nth_error_app1 in Hi by exact Hlt. left. auto.
    - rewrite nth_error_app2 in Hi by exact Hge.
      destruct (i - List.length ths)%nat as [|k] eqn:Ek; cbn in Hi.
      + inversion Hi; subst. right. split; [lia | reflexivity].
      + destruct k; discriminate. }
  split; [|split].
  - intros i th Hi. rewrite length_app. cbn.
    destruct (Hcase i th Hi) as [(_ & Hi')|(_ & ->)].
    + specialize (H1 i th Hi'). lia.
    + cbn. lia.
  - intros i Hc. inversion Hc; subst i.
    eexists. split; [now apply nth_error_fresh|]. reflexivity.
  - intros i th Hi Ha.
    destruct (Hcase i th Hi) as [(Hlt & Hi')|(-> & _)].
    + left. destruct (H3 i th Hi' Ha) as [H|[_ H]]; [|discriminate].
      now apply events_kept.
    + right. auto.
Qed.

(** The callback clearing the flag when the current worker is dead. *)
Lemma session_inv_clear :
  match cur with
  | Some t => match nth_error ths t with
              | Some th => th_alive th
              | None => false
              end
  | None => false
  end = false ->
  session_inv ths evs cur cev true ->
  session_inv ths evs cur cev false.
Proof.
  intros Hdead (H1 & H2 & H3). split; [exact H1|]. split; [exact H2|].
  intros t th Ht Ha. destruct (H3 t th Ht Ha) as [H|[Hc _]]; [now left|].
  subst cur. rewrite Ht in Hdead. congruence.
Qed.

End SessionInvariant.

Ltac unfold_handlers :=
  unfold exec, on_closing, on_play_stop_button_click,
    _update_ui_after_playback_change, update_plot_display_only, thread_exit,
    join_audio_thread, signal_stop, new_event, start_thread, showerror,
    bind, get, modify, lift, ret.

Ltac step_handler :=
  match goal with
  | |- context [match ?x with _ => _ end] =>
      lazymatch x with
      | context [match _ with _ => _ end] => fail
      | negb ?b => destruct b eqn:?
      | _ => destruct x eqn:?
      end
  end; cbn in *.

Ltac session_base :=
  first
    [ eassumption
    | match goal with
      | H : session_inv _ _ _ _ _ |- _ => exact (session_inv_stop H)
      end
    | match goal with
      | Ha : audio_thread_alive _ = false, H : session_inv _ _ _ _ true |- _ =>
          exact (session_inv_clear Ha H)
      end ].

Ltac session_mid :=
  first
    [ session_base
    | solve [apply session_inv_set; session_base]
    | solve [eapply session_inv_exit;
             [eassumption
             | first [session_base | apply session_inv_set; session_base]]] ].

Ltac session_leaf :=
  first [session_mid | eapply session_inv_new; session_mid].

Section SessionHandlers.

Local Opaque dict_get py_float plot_duration waveform_generators.

Lemma click_session (joined : bool) (s : WaveformApp) :
  session_ok s -> session_ok (exec (on_play_stop_button_click joined) s).
Proof.
  unfold session_ok. intros H.
  destruct s as [c m p f th ev act wv fv bt pl evs ths q errs]; cbn in *.
  unfold_handlers. cbn.
  repeat step_handler; session_leaf.
Qed.

Lemma callback_session (s : WaveformApp) :
  session_ok s -> session_ok (exec _update_ui_after_playback_change s).
Proof.
  unfold session_ok. intros H.
  destruct s as [c m p f th ev act wv fv bt pl evs ths q errs]; cbn in *.
  unfold_handlers. cbn.
  repeat step_handler; session_leaf.
Qed.

Lemma thread_exit_session (t : nat) (s : WaveformApp) :
  session_ok s -> session_ok (exec (thread_exit t) s).
Proof.
  unfold session_ok. intros H.
  destruct s as [c m p f th ev act wv fv bt pl evs ths q errs]; cbn in *.
  unfold_handlers. cbn.
  repeat step_handler; session_leaf.
Qed.

Lemma preview_session (o : option pyfloat) (k : option string) (s : WaveformApp) :
  session_ok s -> session_ok (exec (update_plot_display_only o k) s).
Proof.
  unfold session_ok. intros H.
  destruct s as [c m p f th ev act wv fv bt pl evs ths q errs]; cbn in *.
  unfold_handlers. cbn.
  repeat step_handler; session_leaf.
Qed.

Lemma dispatch_session (ev : ui_event) (s s' : WaveformApp) :
  session_ok s -> dispatch ev s = Some s' -> session_ok s'.
Proof.
  intros H Hd. destruct ev; cbn in Hd.
  - inversion Hd; subst. now apply click_session.
  - inversion Hd; subst. destruct s; exact H.
  - inversion Hd; subst. now apply preview_session.
  - destruct (is_key name); [|discriminate]. inversion Hd; subst.
    apply preview_session. destruct s; exact H.
  - destruct (thread_is_alive t s); [|discriminate]. inversion Hd; subst.
    now apply thread_exit_session.
  - destruct (after_queue s); [discriminate|]. inversion Hd; subst.
    apply callback_session. destruct s; exact H.
Qed.

Lemma app_init_session (pa_ok : bool) : session_ok (app_init pa_ok).
Proof.
  unfold app_init. apply preview_session.
  unfold session_ok, session_inv. cbn. split; [|split].
  - intros t th Ht. destruct t; discriminate.
  - intros t Ht. discriminate.
  - intros t th Ht. destruct t; discriminate.
Qed.

Lemma reachable_session (s : WaveformApp) : reachable s -> session_ok s.
Proof.
  induction 1 as [pa_ok|s s' ev _ IH Hd].
  - apply app_init_session.
  - exact (@dispatch_session ev s s' IH Hd).
Qed.

Lemma process_pending_session (l : list ui_event) (s : WaveformApp) :
  session_ok s -> session_ok (process_pending l s).
Proof.
  revert s. induction l as [|ev l IH]; intros s H; cbn; [exact H|].
  destruct (dispatch ev s) as [s'|] eqn:Hd.
  - apply IH. exact (@dispatch_session ev s s' H Hd).
  - now apply IH.
Qed.

End SessionHandlers.

(** Whatever the user does, every live worker thread has had its Event
    set, except the worker of the session that is active: in each
    reachable state the Thread and Event stores are linked to the
    application's fields, every live worker is signalled or is the
    current thread of an active application, and so at most one live
    worker has an Event that is not set. *)
Theorem live_workers_are_signalled (s : WaveformApp) :
  reachable s ->
  stores_linked s
  /\ workers_signalled s
  /\ (forall t1 t2 th1 th2,
         nth_error (threads s) t1 = Some th1 -> th_alive th1 = true ->
         event_is_set (th_stop_event th1) s = false ->
         nth_error (threads s) t2 = Some th2 -> th_alive th2 = true ->
         event_is_set (th_stop_event th2) s = false ->
         t1 = t2).
Proof.
  intros Hr. apply reachable_session in Hr.
  apply session_ok_iff in Hr. destruct Hr as (Hl & Hw).
  split; [exact Hl|]. split; [exact Hw|].
  intros t1 t2 th1 th2 H1 A1 E1 H2 A2 E2.
  destruct (Hw t1 th1 H1 A1) as [F|[C1 _]]; [congruence|].
  destruct (Hw t2 th2 H2 A2) as [F|[C2 _]]; [congruence|].
  congruence.
Qed.

Lemma live_workers_are_signalled_witness :
  let s :=
    exec (on_play_stop_button_click false)         (* Play again *)
      (exec (on_play_stop_button_click false)      (* Stop *)
         (exec (on_play_stop_button_click false)   (* Play *)
            (app_init true))) in
  stores_linked s
  /\ workers_signalled s
  /\ (forall t1 t2 th1 th2,
         nth_error (threads s) t1 = Some th1 -> th_alive th1 = true ->
         event_is_set (th_stop_event th1) s = false ->
         nth_error (threads s) t2 = Some th2 -> th_alive th2 = true ->
         event_is_set (th_stop_event th2) s = false ->
         t1 = t2).
Proof.
  intros s. apply live_workers_are_signalled.
  eapply reach_step with (ev := Click false); [|reflexivity].
  eapply reach_step with (ev := Click false); [|reflexivity].
  eapply reach_step with (ev := Click false); [|reflexivity].
  apply reach_init.
Defined.

(* ================================================================== *)
(** ** Closing the window *)

Section ClosingFacts.

Local Opaque dict_get py_float plot_duration waveform_generators process_pending.

Lemma on_closing_sets_closed (env : closing_env) (s : WaveformApp) :
  _is_closed (exec (on_closing env) s) = true.
Proof.
  destruct s as [c m p f th ev act wv fv bt pl evs ths q errs].
  unfold_handlers. cbn.
  repeat step_handler; reflexivity.
Qed.

Lemma closed_is_inert (s : WaveformApp) :
  _is_closed s = true ->
  (forall env, on_closing env s = (Ok tt, s))
  /\ (forall joined, on_play_stop_button_click joined s = (Ok tt, s))
  /\ _update_ui_after_playback_change s = (Ok tt, s)
  /\ (forall o k, update_plot_display_only o k s = (Ok tt, s))
  /\ (forall t, after_queue (exec (thread_exit t) s) = after_queue s).
Proof.
  destruct s as [c m p f th ev act wv fv bt pl evs ths q errs]; cbn.
  intros ->.
  split; [intros env; reflexivity|].
  split; [intros joined; reflexivity|].
  split; [reflexivity|].
  split; [intros o k; reflexivity|].
  intros t. unfold_handlers. cbn.
  destruct (nth_error ths t); reflexivity.
Qed.

Lemma on_closing_session (env : closing_env) (s : WaveformApp) :
  session_ok s -> session_ok (exec (on_closing env) s).
Proof.
  unfold session_ok at 1. intros H.
  destruct s as [c m p f th ev act wv fv bt pl evs ths q errs]; cbn in *.
  unfold_handlers. cbn.
  repeat step_handler;
    try (apply process_pending_session);
    unfold session_ok; cbn; session_leaf.
Qed.

Lemma preview_quiet (o : option pyfloat) (k : option string) (s : WaveformApp) :
  let s' := exec (update_plot_display_only o k) s in
  audio_active s' = audio_active s /\ pa s' = pa s /\ fig_ax s' = fig_ax s.
Proof.
  destruct s as [c m p f th ev act wv fv bt pl evs ths q errs]; cbn.
  unfold_handlers. cbn.
  repeat step_handler; repeat split.
Qed.

Lemma thread_exit_quiet (t : nat) (s : WaveformApp) :
  let s' := exec (thread_exit t) s in
  audio_active s' = audio_active s /\ pa s' = pa s /\ fig_ax s' = fig_ax s.
Proof.
  destruct s as [c m p f th ev act wv fv bt pl evs ths q errs]; cbn.
  unfold_handlers. cbn.
  repeat step_handler; repeat split.
Qed.

Lemma callback_quiet (s : WaveformApp) :
  let s' := exec _update_ui_after_playback_change s in
  (audio_active s = false -> audio_active s' = false)
  /\ pa s' = pa s /\ fig_ax s' = fig_ax s.
Proof.
  destruct s as [c m p f th ev act wv fv bt pl evs ths q errs]; cbn.
  unfold_handlers. cbn.
  repeat step_handler; repeat split; auto.
Qed.

Lemma dispatch_quiet (ev : ui_event) (s s' : WaveformApp) :
  dispatch ev s = Some s' ->
  match ev with Click _ => false | _ => true end = true ->
  audio_active s = false ->
  audio_active s' = false /\ pa s' = pa s /\ fig_ax s' = fig_ax s.
Proof.
  intros Hd Hev Ha. destruct ev; cbn in Hd; try discriminate Hev.
  - inversion Hd; subst. destruct s; cbn in *. auto.
  - inversion Hd; subst.
    destruct (preview_quiet None None s) as (-> & -> & ->). auto.
  - destruct (is_key name); [|discriminate]. inversion Hd; subst.
    destruct (preview_quiet None None (set_wave_type_var name s)) as (-> & -> & ->).
    destruct s; cbn in *. auto.
  - destruct (thread_is_alive t s); [|discriminate]. inversion Hd; subst.
    destruct (thread_exit_quiet t s) as (-> & -> & ->). auto.
  - destruct (after_queue s) as [|n]; [discriminate|]. inversion Hd; subst.
    destruct (callback_quiet (set_after_queue n s)) as (H1 & -> & ->).
    destruct s; cbn in *. auto.
Qed.

Lemma process_pending_quiet (l : list ui_event) (s : WaveformApp) :
  no_click l = true -> audio_active s = false ->
  audio_active (process_pending l s) = false
  /\ pa (process_pending l s) = pa s
  /\ fig_ax (process_pending l s) = fig_ax s.
Proof.
  Local Transparent process_pending.
  revert s. induction l as [|ev l IH]; intros s Hl Ha; cbn; [auto|].
  cbn in Hl. apply andb_prop in Hl. destruct Hl as (Hev & Hl).
  destruct (dispatch ev s) as [s'|] eqn:Hd.
  - destruct (@dispatch_quiet ev s s' Hd Hev Ha) as (Ha' & <- & <-).
    now apply IH.
  - now apply IH.
Qed.

Local Opaque process_pending.

Lemma on_closing_quiet (env : closing_env) (s : WaveformApp) :
  _is_closed s = false -> no_click (pending env) = true ->
  let s' := exec (on_closing env) s in
  audio_active s' = false
  /\ (terminate_raises env = false -> pa s' = false)
  /\ (close_figure_raises env = false -> fig_ax s' = false).
Proof.
  destruct s as [c m p f th ev act wv fv bt pl evs ths q errs]; cbn.
  intros -> Hnc.
  unfold_handlers. cbn.
  repeat step_handler;
    try match goal with
        | |- context [process_pending ?l ?R] =>
            destruct (@process_pending_quiet l R Hnc eq_refl) as (Q1 & Q2 & Q3);
            cbn in Q1, Q2, Q3
        end;
    (split; [|split]); intros; first [assumption | reflexivity | congruence].
Qed.

End ClosingFacts.

(** However the teardown goes (the join may time out; [terminate],
    [plt.close] and the Tk calls may raise), [on_closing] returns with
    [_is_closed] set, and from then on the application is inert: a second
    [on_closing], a click, the completion callback and the preview return
    at once without changing anything, and a worker that ends later posts
    no callback. *)
Theorem on_closing_closes_for_good (env : closing_env) (s : WaveformApp) :
  let s' := exec (on_closing env) s in
  _is_closed s' = true
  /\ (forall env', on_closing env' s' = (Ok tt, s'))
  /\ (forall joined, on_play_stop_button_click joined s' = (Ok tt, s'))
  /\ _update_ui_after_playback_change s' = (Ok tt, s')
  /\ (forall o k, update_plot_display_only o k s' = (Ok tt, s'))
  /\ (forall t, after_queue (exec (thread_exit t) s') = after_queue s').
Proof.
  intros s'. split; [apply on_closing_sets_closed|].
  apply closed_is_inert. apply on_closing_sets_closed.
Qed.

(** Closing a running application whose pending Tk events hold no click:
    when [on_closing] returns the application is closed and inactive,
    every worker thread that is still alive has its Event set, the audio
    handle is released unless [terminate] raised, and the figure is
    dropped unless [plt.close] raised. *)
Theorem on_closing_stops_every_worker (env : closing_env) (s : WaveformApp) :
  reachable s -> no_click (pending env) = true ->
  let s' := exec (on_closing env) s in
  _is_closed s' = true
  /\ audio_active s' = false
  /\ (forall t th, nth_error (threads s') t = Some th -> th_alive th = true ->
                   event_is_set (th_stop_event th) s' = true)
  /\ (terminate_raises env = false -> pa s' = false)
  /\ (close_figure_raises env = false -> fig_ax s' = false).
Proof.
  intros Hr Hnc s'.
  assert (Hc : _is_closed s = false) by apply (reachable_consistent Hr).
  destruct (@on_closing_quiet env s Hc Hnc) as (Ha & Hp & Hf).
  assert (Hs : session_ok s')
    by (apply on_closing_session, reachable_session; exact Hr).
  apply session_ok_iff in Hs. destruct Hs as (_ & Hw).
  split; [apply on_closing_sets_closed|].
  split; [exact Ha|].
  split; [|split; [exact Hp | exact Hf]].
  intros t th Ht Hal. destruct (Hw t th Ht Hal) as [H|[_ H]]; [exact H|].
  fold s' in Ha. congruence.
Qed.

Lemma on_closing_stops_every_worker_witness :
  let s :=
    exec (on_play_stop_button_click false)         (* Play again *)
      (exec (on_play_stop_button_click false)      (* Stop *)
         (exec (on_play_stop_button_click false)   (* Play *)
            (app_init true))) in
  let env := mkClosingEnv false false false [Callback; WorkerExit 0] false in
  let s' := exec (on_closing env) s in
  _is_closed s' = true
  /\ audio_active s' = false
  /\ (forall t th, nth_error (threads s') t = Some th -> th_alive th = true ->
                   event_is_set (th_stop_event th) s' = true)
  /\ (terminate_raises env = false -> pa s' = false)
  /\ (close_figure_raises env = false -> fig_ax s' = false).
Proof.
  intros s env. apply on_closing_stops_every_worker.
  - eapply reach_step with (ev := Click false); [|reflexivity].
    eapply reach_step with (ev := Click false); [|reflexivity].
    eapply reach_step with (ev := Click false); [|reflexivity].
    apply reach_init.
  - reflexivity.
Defined.

(* ================================================================== *)
(** ** What a worker writes *)

Section Chunking.

Variables (A : Type) (step : nat).
Hypothesis step_pos : (0 < step)%nat.

Lemma firstn_plus (a b : nat) (l : list A) :
  firstn (a + b) l = (firstn a l ++ firstn b (skipn a l))%list.
Proof.
  revert l. induction a as [|a IH]; intros l; [reflexivity|].
  destruct l as [|x l]; cbn.
  - now rewrite firstn_nil.
  - now rewrite IH.
Qed.

Lemma skipn_plus (a b : nat) (l : list A) :
  skipn (a + b) l = skipn b (skipn a l).
Proof.
  revert l. induction a as [|a IH]; intros l; [reflexivity|].
  destruct l as [|x l]; cbn; [now rewrite skipn_nil | apply IH].
Qed.

(** [audio_data[i:min(i + step, len(audio_data))]] is the next [step]
    frames from [i], or what is left of the buffer. *)
Lemma slice_chunk (l : list A) (i : nat) :
  slice l i (Nat.min (i + step) (List.length l)) = firstn step (skipn i l).
Proof.
  unfold slice.
  destruct (Nat.le_gt_cases (i + step) (List.length l)) as [H|H].
  - rewrite Nat.min_l by exact H. f_equal. lia.
  - rewrite Nat.min_r by lia.
    rewrite !firstn_all2; [reflexivity| |]; rewrite length_skipn; lia.
Qed.

Lemma chunk_length (l : list A) (i : nat) :
  (i < List.length l)%nat ->
  (0 < List.length (firstn step (skipn i l)) <= step)%nat.
Proof.
  intros H. rewrite length_firstn, length_skipn. lia.
Qed.

(** The offsets of [range(0, n, step)] lie inside the buffer, and the
    range reaches its end. *)
Lemma range_inside (n k : nat) :
  (k < (n + step - 1) / step)%nat -> (k * step < n)%nat.
Proof.
  intros H.
  destruct (Nat.lt_ge_cases (k * step) n) as [L|G]; [exact L|].
  exfalso.
  assert (E : ((n + step - 1) / step <= k)%nat).
  { apply Nat.lt_succ_r. apply Nat.Div0.div_lt_upper_bound. nia. }
  lia.
Qed.

Lemma range_covers (n : nat) : (n <= (n + step - 1) / step * step)%nat.
Proof.
  pose proof (Nat.div_mod_eq (n + step - 1) step) as E.
  pose proof (Nat.mod_upper_bound (n + step - 1) step) as U.
  nia.
Qed.

End Chunking.

Section WorkerWrites.

Variables (ui : nat -> WaveformApp) (dev : Device) (stop_event : nat)
          (audio_data : list sample).

Local Opaque FRAMES_PER_BUFFER.

Lemma frames_per_buffer_pos : (0 < FRAMES_PER_BUFFER)%nat.
Proof.
  Local Transparent FRAMES_PER_BUFFER.
  unfold FRAMES_PER_BUFFER. apply Nat.lt_0_succ.
Qed.

Local Opaque FRAMES_PER_BUFFER.

Lemma chunks_written_app (a b : list effect) :
  chunks_written (a ++ b) = (chunks_written a ++ chunks_written b)%list.
Proof.
  induction a as [|e a IH]; [reflexivity|].
  destruct e; cbn; rewrite ?IH; reflexivity.
Qed.

(** The chunks of a run are those of its loop. *)
Lemma chunks_of_run :
  chunks_written (_play_audio_thread_target ui dev stop_event audio_data)
  = if event_is_set stop_event (ui 0%nat) || negb (audio_active (ui 0%nat))
    then []
    else if negb (pa (ui 1%nat)) then []
    else if open_raises dev then []
    else chunks_written
           (fst (fst (write_loop ui dev stop_event audio_data
                        (range_step (List.length audio_data) FRAMES_PER_BUFFER)
                        2 0))).
Proof.
  assert (Hn : forall v, chunks_written (notify v) = []).
  { intros v. unfold notify.
    destruct (negb (_is_closed v)); [destruct (master_exists v)|]; reflexivity. }
  assert (Hr : forall b, chunks_written (release dev b) = []).
  { intros b. unfold release.
    destruct b; [|reflexivity].
    destruct (is_active_result dev) as [[|]|]; [destruct (stop_raises dev)| |];
      reflexivity. }
  unfold _play_audio_thread_target, try_block.
  destruct (event_is_set stop_event (ui 0%nat) || negb (audio_active (ui 0%nat))).
  { cbn [app]. apply Hn. }
  destruct (negb (pa (ui 1%nat))).
  { cbn [app]. apply Hn. }
  destruct (open_raises dev).
  { rewrite !chunks_written_app, Hr, Hn. reflexivity. }
  destruct (write_loop ui dev stop_event audio_data
              (range_step (List.length audio_data) FRAMES_PER_BUFFER) 2 0)
    as [[tr r] k].
  rewrite !chunks_written_app, Hr, Hn. cbn. now rewrite !app_nil_r.
Qed.

(** The loop from its iteration number [a]: what it writes is, in order
    and in chunks of at most [FRAMES_PER_BUFFER] frames, a stretch of the
    buffer that starts at offset [a * FRAMES_PER_BUFFER]. *)
Lemma write_loop_prefix (cnt : nat) :
  forall a k n0,
    (a + cnt = (List.length audio_data + FRAMES_PER_BUFFER - 1) / FRAMES_PER_BUFFER)%nat ->
    let cs :=
      chunks_written
        (fst (fst (write_loop ui dev stop_event audio_data
                     (map (fun i => (i * FRAMES_PER_BUFFER)%nat) (seq a cnt)) k n0))) in
    List.concat cs
    = firstn (List.length cs * FRAMES_PER_BUFFER)
             (skipn (a * FRAMES_PER_BUFFER) audio_data)
    /\ Forall (fun c => (0 < List.length c <= FRAMES_PER_BUFFER)%nat) cs
    /\ (List.length cs <= cnt)%nat.
Proof.
  induction cnt as [|cnt IH]; intros a k n0 Ha.
  - cbn. auto.
  - cbn [seq map write_loop].
    destruct (event_is_set stop_event (ui k) || negb (audio_active (ui k))).
    { cbn. split; [reflexivity|]. split; [constructor|lia]. }
    rewrite (slice_chunk frames_per_buffer_pos).
    assert (Hin : (a * FRAMES_PER_BUFFER < List.length audio_data)%nat)
      by (apply (range_inside frames_per_buffer_pos (List.length audio_data)); lia).
    pose proof (chunk_length frames_per_buffer_pos audio_data Hin) as Hlen.
    assert (Hpos : (0 <? List.length
                            (firstn FRAMES_PER_BUFFER
                                    (skipn (a * FRAMES_PER_BUFFER) audio_data)))%nat
                   = true) by (apply Nat.ltb_lt; lia).
    rewrite Hpos.
    destruct (write_raises dev n0).
    { cbn [fst chunks_written List.concat List.length].
      rewrite app_nil_r, Nat.mul_1_l.
      split; [reflexivity|]. split; [repeat constructor; lia | lia]. }
    assert (Ha' : (S a + cnt
                   = (List.length audio_data + FRAMES_PER_BUFFER - 1)
                     / FRAMES_PER_BUFFER)%nat) by lia.
    specialize (IH (S a) (S k) (S n0) Ha').
    destruct (write_loop ui dev stop_event audio_data
                (map (fun i => (i * FRAMES_PER_BUFFER)%nat) (seq (S a) cnt))
                (S k) (S n0)) as [[tr r] k'].
    cbn [fst chunks_written List.concat List.length] in *.
    destruct IH as (Hc & Hf & Hl).
    split; [|split; [constructor; [lia | exact Hf] | lia]].
    rewrite Hc.
    replace (S a * FRAMES_PER_BUFFER)%nat
      with (a * FRAMES_PER_BUFFER + FRAMES_PER_BUFFER)%nat by lia.
    rewrite skipn_plus.
    replace (S (List.length (chunks_written tr)) * FRAMES_PER_BUFFER)%nat
      with (FRAMES_PER_BUFFER
            + List.length (chunks_written tr) * FRAMES_PER_BUFFER)%nat by lia.
    now rewrite firstn_plus.
Qed.

(** With nothing in its way the loop writes one chunk at each offset. *)
Lemma write_loop_complete (cnt : nat) :
  (forall k, event_is_set stop_event (ui k) = false
             /\ audio_active (ui k) = true) ->
  (forall n, write_raises dev n = false) ->
  forall a k n0,
    (a + cnt = (List.length audio_data + FRAMES_PER_BUFFER - 1) / FRAMES_PER_BUFFER)%nat ->
    List.length
      (chunks_written
         (fst (fst (write_loop ui dev stop_event audio_data
                      (map (fun i => (i * FRAMES_PER_BUFFER)%nat) (seq a cnt)) k n0))))
    = cnt.
Proof.
  intros Hgo Hw.
  induction cnt as [|cnt IH]; intros a k n0 Ha; [reflexivity|].
  cbn [seq map write_loop].
  destruct (Hgo k) as (-> & ->). cbn [orb negb].
  rewrite (slice_chunk frames_per_buffer_pos).
  assert (Hin : (a * FRAMES_PER_BUFFER < List.length audio_data)%nat)
    by (apply (range_inside frames_per_buffer_pos (List.length audio_data)); lia).
  pose proof (chunk_length frames_per_buffer_pos audio_data Hin) as Hlen.
  assert (Hpos : (0 <? List.length
                          (firstn FRAMES_PER_BUFFER
                                  (skipn (a * FRAMES_PER_BUFFER) audio_data)))%nat
                 = true) by (apply Nat.ltb_lt; lia).
  rewrite Hpos, Hw.
  assert (Ha' : (S a + cnt
                 = (List.length audio_data + FRAMES_PER_BUFFER - 1)
                   / FRAMES_PER_BUFFER)%nat) by lia.
  specialize (IH (S a) (S k) (S n0) Ha').
  destruct (write_loop ui dev stop_event audio_data
              (map (fun i => (i * FRAMES_PER_BUFFER)%nat) (seq (S a) cnt))
              (S k) (S n0)) as [[tr r] k'].
  cbn [fst chunks_written List.length] in *. now rewrite IH.
Qed.

(** A cancellation that the loop meets at its reading [k + j] leaves at
    most [j] chunks written from reading [k] on. *)
Lemma write_loop_cancelled (offs : list nat) :
  forall k n0 j,
    event_is_set stop_event (ui (k + j)) = true
    \/ audio_active (ui (k + j)) = false ->
    (List.length
       (chunks_written
          (fst (fst (write_loop ui dev stop_event audio_data offs k n0))))
     <= j)%nat.
Proof.
  induction offs as [|i offs IH]; intros k n0 j Hj; cbn [write_loop].
  - cbn. lia.
  - destruct (event_is_set stop_event (ui k) || negb (audio_active (ui k))) eqn:Hk.
    { cbn. lia. }
    destruct j as [|j].
    { exfalso. rewrite Nat.add_0_r in Hj.
      apply orb_false_iff in Hk. destruct Hk as (Hk1 & Hk2).
      apply negb_false_iff in Hk2. destruct Hj; congruence. }
    assert (Hj' : event_is_set stop_event (ui (S k + j)) = true
                  \/ audio_active (ui (S k + j)) = false).
    { replace (S k + j)%nat with (k + S j)%nat by lia. exact Hj. }
    destruct (0 <? _)%nat.
    + destruct (write_raises dev n0).
      * cbn. lia.
      * specialize (IH (S k) (S n0) j Hj').
        destruct (write_loop ui dev stop_event audio_data offs (S k) (S n0))
          as [[tr r] k'].
        cbn [fst chunks_written List.length] in *. lia.
    + specialize (IH (S k) n0 j Hj'). lia.
Qed.

End WorkerWrites.

(** Whatever the user and the device do while a worker runs, what the
    worker hands to [stream.write] is a prefix of its buffer, in order:
    whole chunks of [FRAMES_PER_BUFFER] frames (the last one may be
    shorter), none of them empty. *)
Theorem worker_writes_a_prefix_in_chunks
        (ui : nat -> WaveformApp) (dev : Device) (stop_event : nat)
        (audio_data : list sample) :
  let cs := chunks_written (_play_audio_thread_target ui dev stop_event audio_data) in
  List.concat cs = firstn (List.length cs * FRAMES_PER_BUFFER) audio_data
  /\ Forall (fun c => (0 < List.length c <= FRAMES_PER_BUFFER)%nat) cs.
Proof.
  intros cs. unfold cs. rewrite chunks_of_run.
  destruct (event_is_set stop_event (ui 0%nat) || negb (audio_active (ui 0%nat)));
    [split; [reflexivity | constructor]|].
  destruct (negb (pa (ui 1%nat))); [split; [reflexivity | constructor]|].
  destruct (open_raises dev); [split; [reflexivity | constructor]|].
  destruct (@write_loop_prefix ui dev stop_event audio_data
              ((List.length audio_data + FRAMES_PER_BUFFER - 1) / FRAMES_PER_BUFFER)
              0 2 0 eq_refl) as (Hc & Hf & _).
  split; [exact Hc | exact Hf].
Qed.

(** A worker that is never cancelled, finds the audio handle and meets no
    device error writes its whole buffer: the chunks, put end to end, are
    the buffer, and there are [ceil(len / FRAMES_PER_BUFFER)] of them. *)
Theorem uninterrupted_worker_plays_the_buffer
        (ui : nat -> WaveformApp) (dev : Device) (stop_event : nat)
        (audio_data : list sample) :
  (forall k, event_is_set stop_event (ui k) = false
             /\ audio_active (ui k) = true) ->
  pa (ui 1%nat) = true ->
  open_raises dev = false ->
  (forall n, write_raises dev n = false) ->
  let cs := chunks_written (_play_audio_thread_target ui dev stop_event audio_data) in
  List.concat cs = audio_data
  /\ List.length cs
     = ((List.length audio_data + FRAMES_PER_BUFFER - 1) / FRAMES_PER_BUFFER)%nat.
Proof.
  intros Hgo Hpa Hopen Hw cs. unfold cs. rewrite chunks_of_run.
  destruct (Hgo 0%nat) as (-> & ->). rewrite Hpa, Hopen. cbn [orb negb].
  destruct (@write_loop_prefix ui dev stop_event audio_data
              ((List.length audio_data + FRAMES_PER_BUFFER - 1) / FRAMES_PER_BUFFER)
              0 2 0 eq_refl) as (Hc & _ & _).
  pose proof (@write_loop_complete ui dev stop_event audio_data
                ((List.length audio_data + FRAMES_PER_BUFFER - 1) / FRAMES_PER_BUFFER)
                Hgo Hw 0 2 0 eq_refl) as Hl.
  unfold range_step. split; [|exact Hl].
  rewrite Hc, Hl. apply firstn_all2.
  apply (range_covers frames_per_buffer_pos).
Qed.

Lemma uninterrupted_worker_witness :
  let playing :=
    mkApp false true true true (Some 0%nat) (Some 0%nat) true "Sine" "440" "Stop"
          None [false] [] 0 [] in
  let data := [SNaN; SNaN; SNaN] in
  let cs := chunks_written
              (_play_audio_thread_target (fun _ => playing) sound_device 0 data) in
  List.concat cs = data
  /\ List.length cs
     = ((List.length data + FRAMES_PER_BUFFER - 1) / FRAMES_PER_BUFFER)%nat.
Proof.
  intros playing data.
  apply (@uninterrupted_worker_plays_the_buffer
           (fun _ => playing) sound_device 0%nat data).
  - intros k. split; reflexivity.
  - reflexivity.
  - reflexivity.
  - intros n. reflexivity.
Defined.

(** A cancellation is obeyed within one chunk: the loop reads the shared
    state once before each chunk (readings 2, 3, ... of the run), and if
    at reading [2 + j] the Event is set or the active flag is cleared,
    the run writes at most [j] chunks. *)
Theorem cancelled_worker_stops_within_a_chunk
        (ui : nat -> WaveformApp) (dev : Device) (stop_event : nat)
        (audio_data : list sample) (j : nat) :
  event_is_set stop_event (ui (2 + j)%nat) = true
  \/ audio_active (ui (2 + j)%nat) = false ->
  (List.length
     (chunks_written (_play_audio_thread_target ui dev stop_event audio_data))
   <= j)%nat.
Proof.
  intros Hj. rewrite chunks_of_run.
  destruct (event_is_set stop_event (ui 0%nat) || negb (audio_active (ui 0%nat)));
    [cbn; lia|].
  destruct (negb (pa (ui 1%nat))); [cbn; lia|].
  destruct (open_raises dev); [cbn; lia|].
  apply write_loop_cancelled. exact Hj.
Qed.

Lemma cancelled_worker_witness :
  let playing :=
    mkApp false true true true (Some 0%nat) (Some 0%nat) true "Sine" "440" "Stop"
          None [false] [] 0 [] in
  let stopped :=
    mkApp false true true true (Some 0%nat) (Some 0%nat) false "Sine" "440" "Play"
          None [true] [] 0 [] in
  let ui := fun k => if (k <? 3)%nat then playing else stopped in
  let data := repeat SNaN 5000 in
  (List.length (chunks_written (_play_audio_thread_target ui sound_device 0 data))
   <= 1)%nat.
Proof.
  intros playing stopped ui data.
  apply (@cancelled_worker_stops_within_a_chunk ui sound_device 0%nat data 1%nat).
  left. reflexivity.
Defined.

(* ================================================================== *)
(** ** The splitting animation *)

Section SplitFacts.

Local Open Scope Q_scope.

Variable axes : Axes.
Hypothesis unit_pos : 0 < x_unit_size axes.

(** In the units of the axes: the centre of the new rectangle lies
    strictly between the edges of the old one. *)
Lemma falls_inside_span (old_rect new_rect : Rect) :
  falls_inside axes old_rect new_rect = true ->
  rect_x old_rect < rect_x new_rect + rect_width new_rect / 2
  /\ rect_x new_rect + rect_width new_rect / 2
     < rect_x old_rect + rect_width old_rect.
Proof.
  unfold falls_inside, center_x, scene_width, c2p_x.
  set (u := x_unit_size axes) in *. set (o := x_origin axes).
  set (xo := rect_x old_rect). set (wo := rect_width old_rect).
  set (xn := rect_x new_rect). set (wn := rect_width new_rect).
  intros H. apply negb_true_iff in H.
  assert (L : Qabs.Qabs (o + u * xn + u * wn / 2 - (o + u * xo + u * wo / 2))
              < u * wo / 2).
  { apply Qnot_le_lt. intros C. apply Qle_bool_iff in C. congruence. }
  apply Qabs.Qabs_Qlt_condition in L. destruct L as (L1 & L2).
  assert (E : o + u * xn + u * wn / 2 - (o + u * xo + u * wo / 2)
              == u * (xn + wn / 2 - xo - wo / 2)) by (field).
  rewrite E in L1, L2.
  assert (E1 : - (u * wo / 2) == u * (- (wo / 2))) by field.
  assert (E2 : u * wo / 2 == u * (wo / 2)) by field.
  rewrite E1 in L1. rewrite E2 in L2.
  apply Qmult_lt_l in L1; [|exact unit_pos].
  apply Qmult_lt_l in L2; [|exact unit_pos].
  clear E E1 E2 H. unfold Qdiv in *. change (/ 2) with (1 # 2) in *.
  split; lra.
Qed.

Lemma in_order_no_parent (new_rect : Rect) (current : list Rect) :
  forall lo,
    in_order lo current ->
    rect_x new_rect + rect_width new_rect / 2 <= lo ->
    filter (fun old_rect => falls_inside axes old_rect new_rect) current = [].
Proof.
  induction current as [|o rest IH]; intros lo Ho Hc; [reflexivity|].
  cbn in Ho. destruct Ho as (H1 & H2 & H3). cbn [filter].
  destruct (falls_inside axes o new_rect) eqn:Hin.
  - apply falls_inside_span in Hin. lra.
  - apply (IH _ H3). lra.
Qed.

Lemma in_order_one_parent (new_rect : Rect) (current : list Rect) :
  forall lo,
    in_order lo current ->
    (List.length
       (filter (fun old_rect => falls_inside axes old_rect new_rect) current)
     <= 1)%nat.
Proof.
  induction current as [|o rest IH]; intros lo Ho; [cbn; lia|].
  cbn in Ho. destruct Ho as (H1 & H2 & H3). cbn [filter].
  destruct (falls_inside axes o new_rect) eqn:Hin.
  - apply falls_inside_span in Hin.
    rewrite (@in_order_no_parent new_rect rest _ H3) by lra. cbn. lia.
  - exact (IH _ H3).
Qed.

Lemma count_children (old_rect : Rect) (next : list Rect) (j : nat) :
  forall k,
    count_occ Nat.eq_dec (children_from axes old_rect next k) j
    = if (k <=? j)%nat
      then match nth_error next (j - k) with
           | Some new_rect => if falls_inside axes old_rect new_rect then 1%nat else 0%nat
           | None => 0%nat
           end
      else 0%nat.
Proof.
  induction next as [|n rest IH]; intros k.
  - cbn. destruct (k <=? j)%nat; [|reflexivity].
    now destruct (j - k)%nat.
  - cbn [children_from].
    assert (Hrec : count_occ Nat.eq_dec (children_from axes old_rect rest (S k)) j
                   = if (k <? j)%nat
                     then match nth_error rest (j - S k) with
                          | Some new_rect =>
                              if falls_inside axes old_rect new_rect then 1%nat else 0%nat
                          | None => 0%nat
                          end
                     else 0%nat).
    { rewrite IH. reflexivity. }
    destruct (Nat.lt_trichotomy k j) as [Hlt|[Heq|Hgt]].
    + assert (Hk : (k <=? j)%nat = true) by (apply Nat.leb_le; lia).
      assert (Hk' : (k <? j)%nat = true) by (apply Nat.ltb_lt; lia).
      rewrite Hk. rewrite Hk' in Hrec.
      replace (j - k)%nat with (S (j - S k)) by lia. cbn [nth_error].
      destruct (falls_inside axes old_rect n).
      * rewrite count_occ_cons_neq by lia. exact Hrec.
      * exact Hrec.
    + subst k. rewrite Nat.leb_refl, Nat.sub_diag. cbn [nth_error].
      rewrite Nat.ltb_irrefl in Hrec.
      destruct (falls_inside axes old_rect n).
      * rewrite count_occ_cons_eq by reflexivity. now rewrite Hrec.
      * exact Hrec.
    + assert (Hk : (k <=? j)%nat = false) by (apply Nat.leb_gt; lia).
      assert (Hk' : (k <? j)%nat = false) by (apply Nat.ltb_ge; lia).
      rewrite Hk. rewrite Hk' in Hrec.
      destruct (falls_inside axes old_rect n).
      * rewrite count_occ_cons_neq by lia. exact Hrec.
      * exact Hrec.
Qed.

(** What the loop over the old rectangles animates, and what it records
    as matched: each new rectangle once for every old rectangle it falls
    inside. *)
Lemma count_old_rects_loop (next : list Rect) (j : nat) (new_rect : Rect)
      (current : list Rect) :
  nth_error next j = Some new_rect ->
  forall i,
    let parents :=
      List.length
        (filter (fun old_rect => falls_inside axes old_rect new_rect) current) in
    count_occ Nat.eq_dec
      (List.concat (map animated (fst (old_rects_loop axes current i next)))) j
    = parents
    /\ count_occ Nat.eq_dec (snd (old_rects_loop axes current i next)) j = parents.
Proof.
  intros Hj.
  induction current as [|o rest IH]; intros i; [split; reflexivity|].
  cbn [old_rects_loop filter].
  specialize (IH (S i)).
  destruct (old_rects_loop axes rest (S i) next) as [anims matched].
  cbn [fst snd] in IH. destruct IH as (IH1 & IH2).
  pose proof (count_children o next j 0) as Hc.
  cbn [Nat.leb] in Hc.
  rewrite Nat.sub_0_r, Hj in Hc.
  destruct (0 <? List.length (children_from axes o next 0))%nat eqn:Hl.
  - cbn [fst snd map List.concat animated].
    rewrite !count_occ_app, IH1, IH2, Hc.
    destruct (falls_inside axes o new_rect); cbn; auto.
  - cbn [fst snd map List.concat animated app].
    apply Nat.ltb_ge in Hl.
    assert (Hnil : children_from axes o next 0 = [])
      by (destruct (children_from axes o next 0); [reflexivity | cbn in Hl; lia]).
    rewrite Hnil in Hc. cbn in Hc.
    rewrite IH1, IH2.
    destruct (falls_inside axes o new_rect); [discriminate Hc|]. cbn. auto.
Qed.

Lemma count_filter_seq (p : nat -> bool) (len j : nat) :
  forall start,
    count_occ Nat.eq_dec (filter p (seq start len)) j
    = if ((start <=? j) && (j <? start + len))%nat
      then (if p j then 1%nat else 0%nat)
      else 0%nat.
Proof.
  induction len as [|len IH]; intros start.
  - cbn [seq filter count_occ].
    destruct ((start <=? j) && (j <? start + 0))%nat eqn:E; [|reflexivity].
    apply andb_prop in E. destruct E as (E1 & E2).
    apply Nat.leb_le in E1. apply Nat.ltb_lt in E2. lia.
  - cbn [seq filter]. specialize (IH (S start)).
    destruct (Nat.eq_dec start j) as [->|Hne].
    + assert (E1 : (j <=? j)%nat = true) by apply Nat.leb_refl.
      assert (E2 : (j <? j + S len)%nat = true) by (apply Nat.ltb_lt; lia).
      assert (E3 : (S j <=? j)%nat = false) by (apply Nat.leb_gt; lia).
      rewrite E1, E2. rewrite E3 in IH. cbn [andb] in *.
      destruct (p j).
      * rewrite count_occ_cons_eq by reflexivity. now rewrite IH.
      * exact IH.
    + assert (E : ((start <=? j) && (j <? start + S len))%nat
                  = ((S start <=? j) && (j <? S start + len))%nat).
      { destruct (start <=? j)%nat eqn:E1, (S start <=? j)%nat eqn:E2,
                 (j <? start + S len)%nat eqn:E3, (j <? S start + len)%nat eqn:E4;
          try reflexivity; exfalso;
          rewrite ?Nat.leb_le, ?Nat.leb_gt, ?Nat.ltb_lt, ?Nat.ltb_ge in *; lia. }
      rewrite E, <- IH.
      destruct (p start); [now rewrite count_occ_cons_neq by exact Hne | reflexivity].
Qed.

Lemma existsb_count (l : list nat) (j : nat) :
  existsb (Nat.eqb j) l = negb (count_occ Nat.eq_dec l j =? 0)%nat.
Proof.
  induction l as [|a l IH]; [reflexivity|]. cbn [existsb].
  destruct (Nat.eq_dec a j) as [->|Hne].
  - rewrite Nat.eqb_refl, count_occ_cons_eq by reflexivity. reflexivity.
  - rewrite count_occ_cons_neq by exact Hne.
    assert (E : (j =? a)%nat = false) by (apply Nat.eqb_neq; congruence).
    now rewrite E.
Qed.

(** Over old rectangles that are in order, each new rectangle comes onto
    the scene in exactly one animation. *)
Lemma split_once (current next : list Rect) (lo : Q) (j : nat) :
  in_order lo current -> (j < List.length next)%nat ->
  count_occ Nat.eq_dec
    (List.concat (map animated (split_animations axes current next))) j = 1%nat.
Proof.
  intros Ho Hj.
  destruct (nth_error next j) as [new_rect|] eqn:Hn;
    [|apply nth_error_None in Hn; lia].
  pose proof (@in_order_one_parent new_rect current lo Ho) as Hp.
  destruct (@count_old_rects_loop next j new_rect current Hn 0%nat) as (H1 & H2).
  unfold split_animations.
  destruct (old_rects_loop axes current 0 next) as [anims matched].
  cbn [fst snd] in H1, H2.
  set (parents := List.length
                    (filter (fun old_rect => falls_inside axes old_rect new_rect)
                            current)) in *.
  assert (Hu : count_occ Nat.eq_dec (unmatched_new_rects next matched) j
               = if (parents =? 0)%nat then 1%nat else 0%nat).
  { unfold unmatched_new_rects. rewrite count_filter_seq.
    assert (E1 : (0 <=? j)%nat = true) by (apply Nat.leb_le; lia).
    assert (E2 : (j <? 0 + List.length next)%nat = true)
      by (apply Nat.ltb_lt; lia).
    rewrite E1, E2, existsb_count, H2. cbn [andb].
    destruct (parents =? 0)%nat; reflexivity. }
  destruct (0 <? List.length (unmatched_new_rects next matched))%nat eqn:Hl.
  - rewrite map_app, concat_app, count_occ_app, H1. cbn [map List.concat animated].
    rewrite app_nil_r, Hu.
    destruct parents as [|[|p]]; cbn; lia.
  - apply Nat.ltb_ge in Hl.
    assert (Hnil : unmatched_new_rects next matched = [])
      by (destruct (unmatched_new_rects next matched);
          [reflexivity | cbn in Hl; lia]).
    rewrite Hnil in Hu. cbn [count_occ] in Hu.
    rewrite H1.
    destruct parents as [|[|p]]; cbn in *; [discriminate Hu | reflexivity | lia].
Qed.

Lemma laid_out_in_order (body tail : list Rect) :
  forall lo mid,
    laid_out lo body mid -> in_order mid tail -> in_order lo (body ++ tail).
Proof.
  induction body as [|r body IH]; intros lo mid Hb Ht.
  - cbn in *. destruct tail as [|t tail]; [exact I|].
    cbn in *. destruct Ht as (H1 & H2 & H3).
    split; [lra|]. split; [exact H2 | exact H3].
  - cbn in *. destruct Hb as (H1 & H2 & H3).
    split; [exact H1|]. split; [lra|]. exact (IH _ _ H3 Ht).
Qed.

End SplitFacts.

(** The rectangles of one level are in order. *)
Lemma rectangles_over_in_order (n : Z) (x0 : Q) (xs : list Q) (rects : list Rect) :
  increasing_from x0 xs ->
  rectangles_over n (x0 :: xs) = Some rects ->
  in_order x0 rects.
Proof.
  intros Hinc. unfold rectangles_over.
  destruct (rect_loop n xs (simple_func n x0) x0) as [[body y] mid] eqn:El.
  destruct (@rect_loop_laid_out n xs _ _ x0 _ _ _ El (Qle_refl x0) Hinc)
    as [Hlay Hend].
  rewrite <- (last_cons_last x0 0%Q xs) in Hend.
  intros H. injection H as <-.
  apply (@laid_out_in_order body _ x0 mid Hlay).
  change (match xs with [] => x0 | _ :: _ => last xs 0%Q end)
    with (last (x0 :: xs) 0%Q).
  destruct (segment_rect_cases mid (last (x0 :: xs) 0%Q) y) as [[_ ->]|[_ ->]].
  - exact I.
  - cbn [in_order rect_x rect_width].
    set (e := last (x0 :: xs) 0%Q) in *.
    split; [apply Qle_refl|]. split; [lra | exact I].
Qed.

(** The splitting animation brings each rectangle of the next level onto
    the scene exactly once: the rectangles of a level never overlap, so
    the centre of a new rectangle falls inside at most one old rectangle,
    whose copies turn into it, and a new rectangle with no such parent is
    in the one [FadeIn]. *)
Theorem split_animates_each_rectangle_once
        (axes : Axes) (n : Z) (x0 : Q) (xs : list Q)
        (current next : list Rect) (j : nat) :
  (0 < x_unit_size axes)%Q ->
  increasing_from x0 xs ->
  rectangles_over n (x0 :: xs) = Some current ->
  (j < List.length next)%nat ->
  count_occ Nat.eq_dec
    (List.concat (map animated (split_animations axes current next))) j = 1%nat.
Proof.
  intros Hu Hinc Hc Hj.
  apply (@split_once axes Hu current next x0 j); [|exact Hj].
  exact (@rectangles_over_in_order n x0 xs current Hinc Hc).
Qed.

Lemma split_animates_each_rectangle_once_witness :
  let x_values := [-8; -4; 0; 4; 8]%Q in
  exists current next,
    rectangles_over 1 x_values = Some current
    /\ rectangles_over 2 x_values = Some next
    /\ count_occ Nat.eq_dec
         (List.concat
            (map animated (split_animations (mkAxes (12 # 17) 0) current next)))
         0%nat
       = 1%nat.
Proof.
  intros x_values. eexists. eexists.
  split; [reflexivity|]. split; [reflexivity|].
  apply (@split_animates_each_rectangle_once
           (mkAxes (12 # 17) 0) 1%Z (-8)%Q [-4; 0; 4; 8]%Q).
  - reflexivity.
  - cbn. repeat split.
  - reflexivity.
  - vm_compute. lia.
Defined.
